(** * Schema migration of the Shadowrun 5e system ([src/module/migration.js])

    A shallow embedding of the migration engine: the four field transform
    rules, the three entity migrators and the orchestrator, followed by the
    properties the specification states about them.

    Documents are JSON values as the host persists them.  A JavaScript value
    is an [option json], [None] standing for [undefined].  Exceptions are
    explicit ([result]); the in-place mutation of [updateData] is written as
    state passing: a rule takes the patch built so far and returns the new
    one. *)

From Stdlib Require Import String Ascii List ZArith NArith Bool Lia.
From Stdlib Require Import DecimalString.
Import ListNotations.
Local Open Scope string_scope.
Local Open Scope list_scope.

(* ================================================================== *)
(** * Data model *)
(* ================================================================== *)

(** JSON documents.  Numbers are integers: the migration code only compares
    a number with [0] and only writes [0].  An object is the list of its own
    properties in enumeration order. *)
#[local] Unset Elimination Schemes.
Inductive json : Type :=
| JNull
| JBool (b : bool)
| JNum (n : Z)
| JStr (s : string)
| JArr (l : list json)
| JObj (o : list (string * json)).
#[local] Set Elimination Schemes.

Definition obj : Type := list (string * json).

(** Exceptions of the JavaScript code. *)
Inductive error : Type :=
| TypeError      (* property of undefined/null, call of a non-function, ... *)
| SyntaxError    (* JSON.parse of something that is not JSON *)
| HostError (msg : string).  (* rejection coming from the host platform *)

Inductive result (A : Type) : Type :=
| Ok (a : A)
| Throw (e : error).
Arguments Ok {A} a.
Arguments Throw {A} e.

Definition bind {A B} (r : result A) (f : A -> result B) : result B :=
  match r with
  | Ok a => f a
  | Throw e => Throw e
  end.

Declare Scope js_scope.
Delimit Scope js_scope with js.
Notation "x <- c1 ;; c2" := (bind c1 (fun x => c2))
  (at level 61, c1 at next level, right associativity) : js_scope.
Local Open Scope js_scope.

Definition throws {A} (r : result A) : Prop := exists e, r = Throw e.

(** [reduce] over a list with a callback that may throw. *)
Fixpoint reduce {A B} (f : A -> B -> result A) (l : list B) (init : A) : result A :=
  match l with
  | [] => Ok init
  | x :: l' => a <- f init x ;; reduce f l' a
  end.

(** [Array.prototype.map] with a callback that may throw. *)
Fixpoint map_m {A B} (f : A -> result B) (l : list A) : result (list B) :=
  match l with
  | [] => Ok []
  | x :: l' => y <- f x ;; ys <- map_m f l' ;; Ok (y :: ys)
  end.

(* ------------------------------------------------------------------ *)
(** ** Own properties of an object *)

Fixpoint obj_get (k : string) (o : obj) : option json :=
  match o with
  | [] => None
  | (k', v) :: o' => if String.eqb k k' then Some v else obj_get k o'
  end.

Definition obj_has (k : string) (o : obj) : bool :=
  match obj_get k o with Some _ => true | None => false end.

Definition keys (o : obj) : list string := map fst o.

Definition is_digit (c : ascii) : bool :=
  let n := nat_of_ascii c in (48 <=? n)%nat && (n <=? 57)%nat.

Fixpoint digits_value (s : string) (acc : N) : option N :=
  match s with
  | EmptyString => Some acc
  | String c s' =>
      if is_digit c
      then digits_value s' (acc * 10 + (N_of_ascii c - 48))%N
      else None
  end.

(** An array index is a canonical decimal numeral below [2^32 - 1]; such
    keys are enumerated first, in ascending numeric order. *)
Definition array_index (k : string) : option N :=
  match k with
  | EmptyString => None
  | String "0"%char EmptyString => Some 0%N
  | String "0"%char _ => None
  | _ => match digits_value k 0%N with
         | Some n => if (n <? 4294967295)%N then Some n else None
         | None => None
         end
  end.

Fixpoint obj_replace (k : string) (v : json) (o : obj) : obj :=
  match o with
  | [] => []
  | (k', v') :: o' =>
      if String.eqb k k' then (k, v) :: o' else (k', v') :: obj_replace k v o'
  end.

Fixpoint obj_insert_index (n : N) (k : string) (v : json) (o : obj) : obj :=
  match o with
  | [] => [(k, v)]
  | (k', v') :: o' =>
      match array_index k' with
      | Some m => if (m <? n)%N then (k', v') :: obj_insert_index n k v o'
                  else (k, v) :: o
      | None => (k, v) :: o
      end
  end.

(** The assignment [o[k] = v] on an ordinary object.  An existing own
    property keeps its place; a new array index goes to its numeric place; any
    other new key goes last.  Assigning to ["__proto__"] when it is not an own
    property reaches the inherited setter and creates no own property. *)
Definition obj_set (k : string) (v : json) (o : obj) : obj :=
  if obj_has k o then obj_replace k v o
  else if String.eqb k "__proto__" then o
  else match array_index k with
       | Some n => obj_insert_index n k v o
       | None => o ++ [(k, v)]
       end.

(* ------------------------------------------------------------------ *)
(** ** JavaScript primitives used by the module *)

(** The property read [x.p].  The names the module reads ([data], [type],
    [items], [specs], ...) are never inherited ones, so a primitive or an
    array yields [undefined] for them. *)
Definition get (x : option json) (p : string) : result (option json) :=
  match x with
  | None | Some JNull => Throw TypeError
  | Some (JObj o) => Ok (obj_get p o)
  | Some _ => Ok None
  end.

(** A chain of property reads [x.p1.p2...]. *)
Fixpoint get_path (x : option json) (ps : list string) : result (option json) :=
  match ps with
  | [] => Ok x
  | p :: ps' => y <- get x p ;; get_path y ps'
  end.

(** Truthiness ([!x] is its negation). *)
Definition truthy (x : option json) : bool :=
  match x with
  | None | Some JNull => false
  | Some (JBool b) => b
  | Some (JNum n) => negb (n =? 0)%Z
  | Some (JStr s) => negb (String.eqb s "")
  | Some (JArr _) | Some (JObj _) => true
  end.

Definition index_key (n : nat) : string :=
  NilEmpty.string_of_uint (Nat.to_uint n).

Fixpoint chars (s : string) : list json :=
  match s with
  | EmptyString => []
  | String c s' => JStr (String c EmptyString) :: chars s'
  end.

Definition indexed (l : list json) : list (string * json) :=
  combine (map index_key (seq 0 (length l))) l.

(** [Object.entries(x)]. *)
Definition entries (x : option json) : result (list (string * json)) :=
  match x with
  | None | Some JNull => Throw TypeError
  | Some (JObj o) => Ok o
  | Some (JArr l) => Ok (indexed l)
  | Some (JStr s) => Ok (indexed (chars s))
  | Some (JBool _) | Some (JNum _) => Ok []
  end.

(** [isObjectEmpty] of the host, on an object. *)
Definition isObjectEmpty (o : obj) : bool :=
  match o with
  | [] => true
  | _ :: _ => false
  end.

(** [duplicate] of the host: a JSON round trip, the identity on a JSON
    document; [undefined] is no JSON text. *)
Definition duplicate (x : option json) : result json :=
  match x with
  | None => Throw SyntaxError
  | Some v => Ok v
  end.

(** The character class of [splitRegex = /[,\/|.]+/]. *)
Definition is_delim (c : ascii) : bool :=
  Ascii.eqb c ","%char || Ascii.eqb c "/"%char
  || Ascii.eqb c "|"%char || Ascii.eqb c "."%char.

(** [s.split(splitRegex)]: [cur] is the piece being read, [in_run] tells
    that the previous character was a delimiter.  A run of delimiters
    separates two pieces; a piece may be empty at either end of the string. *)
Fixpoint split_runs (cur : string) (in_run : bool) (s : string) : list string :=
  match s with
  | EmptyString => [cur]
  | String c s' =>
      if is_delim c
      then if in_run then split_runs "" true s'
           else cur :: split_runs "" true s'
      else split_runs (cur ++ String c "")%string false s'
  end.

Definition split (s : string) : list string := split_runs "" false s.

Definition nonempty (s : string) : bool := negb (String.eqb s "").

(** [s.split(sep)] for a one-character separator string, as [getProperty]
    uses it on a dotted path: every separator cuts. *)
Fixpoint split_on (sep : ascii) (cur : string) (s : string) : list string :=
  match s with
  | EmptyString => [cur]
  | String c s' =>
      if Ascii.eqb c sep then cur :: split_on sep "" s'
      else split_on sep (cur ++ String c "")%string s'
  end.

(* ================================================================== *)
(** * The host platform *)
(* ================================================================== *)

(** Helpers of the host that the migrators call and that are not part of the
    module.  [getProperty object key] reads a dotted path; [mergeObject
    original other] merges the patch [other] into [original] and returns the
    merged document; [tokenActor t] tells whether [new Token(t).actor]
    resolves to an Actor of the world. *)
Record Host : Type := {
  getProperty : option json -> string -> result (option json);
  mergeObject : json -> obj -> result json;
  tokenActor : json -> bool
}.

(* ================================================================== *)
(** * Field transform rules *)
(* ================================================================== *)

(** The assignment [o.p.k = v] of strict-mode code, [o] being the patch:
    it throws when [o.p] is undefined, null or a primitive; a property put on
    an array does not show in its JSON form. *)
Definition assign_in (o : obj) (p k : string) (v : json) : result obj :=
  match obj_get p o with
  | None | Some JNull => Throw TypeError
  | Some (JObj d) => Ok (obj_set p (JObj (obj_set k v d)) o)
  | Some (JArr _) => Ok o
  | Some _ => Throw TypeError
  end.

(** [list.includes(x)] for a list of string literals. *)
Definition includes (l : list string) (x : option json) : bool :=
  match x with
  | Some (JStr s) => existsb (String.eqb s) l
  | _ => false
  end.

Definition _migrateActorOverflow (h : Host) (actor : json) (updateData : obj)
  : result obj :=
  data <- get (Some actor) "data" ;;
  overflow <- getProperty h data "track.physical.overflow" ;;
  match overflow with
  | Some (JNum 0) =>
      let updateData :=
        obj_set "data.track.physical.overflow.value" (JNum 0) updateData in
      Ok (obj_set "data.track.physical.overflow.max" (JNum 0) updateData)
  | _ => Ok updateData
  end.

(** The tokens of a legacy [specs] string. *)
Definition split_specs (s : string) : list string :=
  filter nonempty (split s).

Definition reducer (running : obj) (kv : string * json) : result obj :=
  let (key, val) := kv in
  specs <- get (Some val) "specs" ;;
  match specs with
  | Some (JArr _) => Ok running
  | Some (JStr s) =>
      Ok (obj_set key (JObj [("specs", JArr (map JStr (split_specs s)))]) running)
  | _ => Throw TypeError
  end.

(** One statement
    [updateData[key] = Object.entries(actor.p1.p2...).reduce(reducer, {})]. *)
Definition migrate_group (actor : json) (key : string) (path : list string)
    (updateData : obj) : result obj :=
  group <- get_path (Some actor) path ;;
  es <- entries group ;;
  g <- reduce reducer es [] ;;
  Ok (obj_set key (JObj g) updateData).

Definition _migrateActorSkills (actor : json) (updateData : obj) : result obj :=
  u <- migrate_group actor "data.skills.active"
         ["data"; "skills"; "active"] updateData ;;
  u <- migrate_group actor "data.skills.knowledge.street.value"
         ["data"; "skills"; "knowledge"; "street"; "value"] u ;;
  u <- migrate_group actor "data.skills.knowledge.professional.value"
         ["data"; "skills"; "knowledge"; "professional"; "value"] u ;;
  u <- migrate_group actor "data.skills.knowledge.academic.value"
         ["data"; "skills"; "knowledge"; "academic"; "value"] u ;;
  u <- migrate_group actor "data.skills.knowledge.interests.value"
         ["data"; "skills"; "knowledge"; "interests"; "value"] u ;;
  migrate_group actor "data.skills.language.value"
         ["data"; "skills"; "language"; "value"] u.

Definition _migrateItemsAddCapacity (item : json) (updateData : obj)
  : result obj :=
  ty <- get (Some item) "type" ;;
  if includes ["cyberware"] ty then
    data <- get (Some item) "data" ;;
    capacity <- get data "capacity" ;;
    match capacity with
    | None => assign_in updateData "data" "capacity" (JNum 0)
    | Some _ => Ok updateData
    end
  else Ok updateData.

Definition default_action : json :=
  JObj [ ("type", JStr "");
         ("category", JStr "");
         ("attribute", JStr "");
         ("attribute2", JStr "");
         ("skill", JStr "");
         ("spec", JBool false);
         ("mod", JNum 0);
         ("limit", JObj [ ("value", JNum 0); ("attribute", JStr "") ]);
         ("extended", JBool false);
         ("damage", JObj [ ("type", JStr "");
                           ("element", JStr "");
                           ("value", JNum 0);
                           ("ap", JObj [ ("value", JNum 0) ]);
                           ("attribute", JStr "") ]);
         ("opposed", JObj [ ("type", JStr "");
                            ("attribute", JStr "");
                            ("attribute2", JStr "");
                            ("skill", JStr "");
                            ("mod", JNum 0);
                            ("description", JStr "") ]) ].

Definition _migrateItemsAddActions (item : json) (updateData : obj)
  : result obj :=
  ty <- get (Some item) "type" ;;
  if includes ["quality"; "cyberware"] ty then
    data <- get (Some item) "data" ;;
    action <- get data "action" ;;
    match action with
    | None =>
        let updateData :=
          if negb (truthy (obj_get "data" updateData))
          then obj_set "data" (JObj []) updateData
          else updateData in
        assign_in updateData "data" "action" default_action
    | Some _ => Ok updateData
    end
  else Ok updateData.

(* ================================================================== *)
(** * Entity migrators *)
(* ================================================================== *)

Definition migrateItemData (item : json) : result obj :=
  updateData <- _migrateItemsAddActions item [] ;;
  _migrateItemsAddCapacity item updateData.

(** The callback of [actor.items.map]: the flag tells whether the closure
    set [hasItemUpdates]. *)
Definition migrateOwnedItem (h : Host) (i : json) : result (bool * json) :=
  itemUpdate <- migrateItemData i ;;
  if negb (isObjectEmpty itemUpdate)
  then m <- mergeObject h i itemUpdate ;; Ok (true, m)
  else Ok (false, i).

(** The [console.log] of the patch is left out. *)
Definition migrateActorData (h : Host) (actor : json) : result obj :=
  updateData <- _migrateActorOverflow h actor [] ;;
  updateData <- _migrateActorSkills actor updateData ;;
  actor_items <- get (Some actor) "items" ;;
  if negb (truthy actor_items) then Ok updateData
  else match actor_items with
       | Some (JArr its) =>
           r <- map_m (migrateOwnedItem h) its ;;
           let hasItemUpdates := existsb fst r in
           let items := map snd r in
           if hasItemUpdates
           then Ok (obj_set "items" (JArr items) updateData)
           else Ok updateData
       | _ => Throw TypeError
       end.

(** The assignment [t.p = v] of strict-mode code on a token of the
    duplicated list: it throws on a primitive; a property put on an array
    does not show in its JSON form. *)
Definition assign (t : json) (p : string) (v : json) : result json :=
  match t with
  | JObj o => Ok (JObj (obj_set p v o))
  | JArr _ => Ok t
  | _ => Throw TypeError
  end.

(** The callback of [tokens.map] in [migrateSceneData]. *)
Definition migrateToken (h : Host) (t : json) : result json :=
  actorId <- get (Some t) "actorId" ;;
  inert <-
    (if negb (truthy actorId) then Ok true
     else actorLink <- get (Some t) "actorLink" ;;
          if truthy actorLink then Ok true
          else actorData <- get (Some t) "actorData" ;;
               d <- get actorData "data" ;;
               Ok (negb (truthy d))) ;;
  if (inert : bool) then assign t "actorData" (JObj [])
  else if negb (tokenActor h t) then
    t <- assign t "actorId" JNull ;;
    assign t "actorData" (JObj [])
  else
    actorLink <- get (Some t) "actorLink" ;;
    if negb (truthy actorLink) then
      actorData <- get (Some t) "actorData" ;;
      match actorData with
      | Some ad =>
          updateData <- migrateActorData h ad ;;
          m <- mergeObject h ad updateData ;;
          assign t "actorData" m
      | None => Throw TypeError
      end
    else Ok t.

Definition migrateSceneData (h : Host) (scene : json) : result obj :=
  scene_tokens <- get (Some scene) "tokens" ;;
  tokens <- duplicate scene_tokens ;;
  match tokens with
  | JArr ts =>
      ts' <- map_m (migrateToken h) ts ;;
      Ok [("tokens", JArr ts')]
  | _ => Throw TypeError
  end.

(* ================================================================== *)
(** * Merging plain documents; a reference host *)
(* ================================================================== *)

(** The host's recursive merge on documents whose keys are plain (no dotted
    path and no deletion marker [-=]): an object of the patch is merged into
    the object found under the same key, or into a fresh [{}] when the key is
    new; any other value of the patch replaces what is there. *)
Fixpoint merge_into (original : obj) (other : json) {struct other} : obj :=
  match other with
  | JObj u =>
      (fix go (u : list (string * json)) (acc : obj) {struct u} : obj :=
         match u with
         | [] => acc
         | (k, v) :: u' =>
             go u'
                match v with
                | JObj _ =>
                    match obj_get k acc with
                    | Some (JObj x) => obj_set k (JObj (merge_into x v)) acc
                    | Some _ => obj_set k v acc
                    | None => obj_set k (JObj (merge_into [] v)) acc
                    end
                | _ => obj_set k v acc
                end
         end) u original
  | _ => original
  end.

Definition merge_plain (original other : obj) : obj :=
  merge_into original (JObj other).

Fixpoint has_char (c : ascii) (s : string) : bool :=
  match s with
  | EmptyString => false
  | String c' s' => Ascii.eqb c c' || has_char c s'
  end.

Definition dotted (k : string) : bool := has_char "."%char k.

Definition deletion_key (k : string) : bool := String.prefix "-=" k.

(** No key of the top level is a dotted path. *)
Definition plain_keys (o : obj) : bool :=
  forallb (fun k => negb (dotted k)) (keys o).

(** No key at any depth is a deletion marker. *)
Fixpoint no_deletion (v : json) : bool :=
  match v with
  | JObj o =>
      (fix go (o : list (string * json)) : bool :=
         match o with
         | [] => true
         | (k, v) :: o' => negb (deletion_key k) && no_deletion v && go o'
         end) o
  | _ => true
  end.

(** The value a path leads to through own properties of nested objects. *)
Fixpoint own_path (x : option json) (ps : list string) : option json :=
  match ps with
  | [] => x
  | p :: ps' =>
      match x with
      | Some (JObj o) =>
          match obj_get p o with
          | Some v => own_path (Some v) ps'
          | None => None
          end
      | _ => None
      end
  end.

(** What the module relies on from the host's helpers: [getProperty] returns
    the value a dotted path leads to through own properties of nested
    objects, and [mergeObject] is [merge_plain] on plain documents. *)
Record HostLaws (h : Host) : Prop := {
  getProperty_own :
    forall x key v,
      key <> "" ->
      own_path x (split_on "."%char "" key) = Some v ->
      getProperty h x key = Ok (Some v);
  mergeObject_plain :
    forall o u,
      plain_keys o = true -> plain_keys u = true ->
      no_deletion (JObj u) = true ->
      mergeObject h (JObj o) u = Ok (JObj (merge_plain o u))
}.

(** A reference host, to run the migrators on concrete documents.  Its
    [getProperty] walks own properties; its [mergeObject] expands dotted
    keys, when there are some, into nested objects, then merges; it knows no
    deletion marker. *)
Fixpoint walk_own (target : option json) (parts : list string)
  : result (option json) :=
  match parts with
  | [] => Ok target
  | p :: parts' =>
      match target with
      | None | Some JNull => Throw TypeError
      | Some (JObj o) =>
          match obj_get p o with
          | Some v => walk_own (Some v) parts'
          | None => Ok None
          end
      | Some _ => Ok None
      end
  end.

Definition ref_getProperty (object : option json) (key : string)
  : result (option json) :=
  if String.eqb key "" then Ok None
  else walk_own object (split_on "."%char "" key).

Fixpoint set_path (o : obj) (parts : list string) (v : json) : result obj :=
  match parts with
  | [] => Ok o
  | [k] => Ok (obj_set k v o)
  | p :: parts' =>
      match obj_get p o with
      | None => d <- set_path [] parts' v ;; Ok (obj_set p (JObj d) o)
      | Some (JObj d) => d' <- set_path d parts' v ;; Ok (obj_set p (JObj d') o)
      | Some _ => Throw (HostError "path through a value that is not an object")
      end
  end.

Fixpoint expand_paths (v : json) : result json :=
  match v with
  | JObj o =>
      e <- (fix go (o : list (string * json)) (expanded : obj) : result obj :=
              match o with
              | [] => Ok expanded
              | (k, v) :: o' =>
                  v' <- expand_paths v ;;
                  e <- set_path expanded (split_on "."%char "" k) v' ;;
                  go o' e
              end) o [] ;;
      Ok (JObj e)
  | _ => Ok v
  end.

Definition expand_obj (o : obj) : result obj :=
  if plain_keys o then Ok o
  else e <- expand_paths (JObj o) ;;
       match e with
       | JObj o' => Ok o'
       | _ => Throw (HostError "not an object")
       end.

Definition ref_mergeObject (original : json) (other : obj) : result json :=
  match original with
  | JObj o =>
      o' <- expand_obj o ;;
      other' <- expand_obj other ;;
      Ok (JObj (merge_plain o' other'))
  | _ => Throw (HostError "One of original or other are not Objects!")
  end.

(** The reference host knows the Actors whose ids are listed. *)
Definition ref_tokenActor (actors : list string) (t : json) : bool :=
  match get (Some t) "actorId" with
  | Ok (Some (JStr id)) => existsb (String.eqb id) actors
  | _ => false
  end.

Definition ref_host (actors : list string) : Host :=
  {| getProperty := ref_getProperty;
     mergeObject := ref_mergeObject;
     tokenActor := ref_tokenActor actors |}.

(* ================================================================== *)
(** * Migration orchestrator *)
(* ================================================================== *)

(** An entity of the world or of a compendium: [_id], [name] and [data]. *)
Record entity : Type := {
  ent_id : string;
  ent_name : string;
  ent_data : json
}.

(** A compendium pack: [metadata.package], [metadata.entity], [collection]. *)
Record pack : Type := {
  pack_package : string;
  pack_entity : string;
  pack_collection : string
}.

Record game : Type := {
  version : string;
  actors : list entity;
  items : list entity;
  scenes : list entity;
  packs : list pack
}.

(** What the orchestrator does to the outside, in order.  An update call is
    recorded with the document it targets, the patch it sends and whether the
    host accepted it. *)
Inductive event : Type :=
| Notify (msg : string)
| ConsoleLog (msg : string)
| ConsoleError (e : error)
| UpdateCall (kind : string) (target : entity) (patch : obj) (accepted : bool)
| PackUpdateCall (p : pack) (patch : obj) (accepted : bool)
| VersionSet (v : string).

(** The asynchronous calls of the host, over a host state [W]: each may
    reject.  [expandObject] is the synchronous helper [migrateCompendium]
    calls on the patch. *)
Record HostIO (W : Type) : Type := {
  entity_update : string -> entity -> obj -> W -> W * result unit;
  pack_migrate : pack -> W -> W * result unit;
  pack_getContent : pack -> W -> W * result (list entity);
  pack_updateEntity : pack -> obj -> W -> W * result unit;
  expandObject : obj -> result json
}.
Arguments entity_update {W}.
Arguments pack_migrate {W}.
Arguments pack_getContent {W}.
Arguments pack_updateEntity {W}.
Arguments expandObject {W}.

Section Orchestrator.

Variable W : Type.
Variable io : HostIO W.
Variable h : Host.

(** Sequential code with exceptions over the host state and the trace. *)
Definition M (A : Type) : Type :=
  W * list event -> (W * list event) * result A.

Definition ret {A} (a : A) : M A := fun s => (s, Ok a).

Definition bindM {A B} (m : M A) (f : A -> M B) : M B :=
  fun s => match m s with
           | (s', Ok a) => f a s'
           | (s', Throw e) => (s', Throw e)
           end.

Definition lift {A} (r : result A) : M A := fun s => (s, r).

Definition emit (ev : event) : M unit :=
  fun s => ((fst s, snd s ++ [ev]), Ok tt).

(** [try { body } catch(err) { handler(err) }]. *)
Definition try_catch {A} (body : M A) (handler : error -> M A) : M A :=
  fun s => match body s with
           | (s', Ok a) => (s', Ok a)
           | (s', Throw e) => handler e s'
           end.

(** [for ( let x of l ) body(x)]: an exception leaving the body leaves the
    loop. *)
Fixpoint for_each {X} (l : list X) (body : X -> M unit) : M unit :=
  match l with
  | [] => ret tt
  | x :: l' => bindM (body x) (fun _ => for_each l' body)
  end.

Definition accepted {A} (r : result A) : bool :=
  match r with Ok _ => true | Throw _ => false end.

(** [await e.update(updateData, {enforceTypes: false})]. *)
Definition await_update (kind : string) (e : entity) (patch : obj) : M unit :=
  fun s => let (w', r) := entity_update io kind e patch (fst s) in
           ((w', snd s ++ [UpdateCall kind e patch (accepted r)]), r).

(** [await pack.updateEntity(updateData)]. *)
Definition await_updateEntity (p : pack) (patch : obj) : M unit :=
  fun s => let (w', r) := pack_updateEntity io p patch (fst s) in
           ((w', snd s ++ [PackUpdateCall p patch (accepted r)]), r).

Definition await_migrate (p : pack) : M unit :=
  fun s => let (w', r) := pack_migrate io p (fst s) in ((w', snd s), r).

Definition await_getContent (p : pack) : M (list entity) :=
  fun s => let (w', r) := pack_getContent io p (fst s) in ((w', snd s), r).

Notation "x <~ c1 ;; c2" := (bindM c1 (fun x => c2))
  (at level 61, c1 at next level, right associativity).
Notation "c1 ;;; c2" := (bindM c1 (fun _ => c2))
  (at level 61, right associativity).

(** The migrator of an entity kind, as [migrateCompendium] picks it; for
    another kind [updateData] stays [null] and [isObjectEmpty] throws. *)
Definition migrateEntityData (kind : string) (data : json) : result obj :=
  if String.eqb kind "Item" then migrateItemData data
  else if String.eqb kind "Actor" then migrateActorData h data
  else if String.eqb kind "Scene" then migrateSceneData h data
  else Throw TypeError.

(** One turn of a world loop of [migrateWorld]. *)
Definition migrateWorldEntity (kind : string) (e : entity) : M unit :=
  try_catch
    (updateData <~ lift (migrateEntityData kind (ent_data e)) ;;
     if negb (isObjectEmpty updateData) then
       emit (ConsoleLog ("Migrating " ++ kind ++ " entity " ++ ent_name e)%string) ;;;
       await_update kind e updateData
     else ret tt)
    (fun err => emit (ConsoleError err)).

(** One turn of the loop of [migrateCompendium]. *)
Definition migrateCompendiumEntity (p : pack) (ent : entity) : M unit :=
  let entity := pack_entity p in
  try_catch
    (updateData <~ lift (migrateEntityData entity (ent_data ent)) ;;
     if negb (isObjectEmpty updateData) then
       lift (expandObject io updateData) ;;;
       let updateData := obj_set "_id" (JStr (ent_id ent)) updateData in
       await_updateEntity p updateData ;;;
       emit (ConsoleLog ("Migrated " ++ entity ++ " entity " ++ ent_name ent
                           ++ " in Compendium " ++ pack_collection p)%string)
     else ret tt)
    (fun err => emit (ConsoleError err)).

Definition entity_kinds : list string := ["Actor"; "Item"; "Scene"].

Definition migrateCompendium (p : pack) : M unit :=
  let entity := pack_entity p in
  if negb (existsb (String.eqb entity) entity_kinds) then ret tt
  else
    await_migrate p ;;;
    content <~ await_getContent p ;;
    for_each content (migrateCompendiumEntity p) ;;;
    emit (ConsoleLog ("Migrated all " ++ entity ++ " entities from Compendium "
                        ++ pack_collection p)%string).

(** The filter of [migrateWorld] on [game.packs]. *)
Definition world_pack (p : pack) : bool :=
  String.eqb (pack_package p) "world"
  && existsb (String.eqb (pack_entity p)) entity_kinds.

(** [game.settings.set] is not awaited; it is recorded as an event. *)
Definition migrateWorld (g : game) : M unit :=
  emit (Notify ("Applying Shadowrun 5e System Migration for version "
                  ++ version g ++ ". Please be patient and do not close your game or shut down your server.")%string) ;;;
  for_each (actors g) (migrateWorldEntity "Actor") ;;;
  for_each (items g) (migrateWorldEntity "Item") ;;;
  for_each (scenes g) (migrateWorldEntity "Scene") ;;;
  for_each (filter world_pack (packs g)) migrateCompendium ;;;
  emit (VersionSet (version g)) ;;;
  emit (Notify ("Shadowrun5e System Migration to version "
                  ++ version g ++ " completed!")%string) ;;;
  emit (ConsoleLog ("Shadowrun5e System Migration to version "
                      ++ version g ++ " completed!")%string).

End Orchestrator.

Arguments ret {W A}.
Arguments bindM {W A B}.
Arguments for_each {W X}.
Arguments try_catch {W A}.

(* ================================================================== *)
(** * Specification-level definitions *)
(* ================================================================== *)

(** The default action sub-document as the specification prints it. *)
Definition spec_action_literal : json :=
  JObj [ ("type", JStr ""); ("category", JStr ""); ("attribute", JStr "");
         ("attribute2", JStr ""); ("skill", JStr ""); ("spec", JBool false);
         ("mod", JNum 0);
         ("limit", JObj [ ("value", JNum 0); ("attribute", JStr "") ]);
         ("extended", JBool false);
         ("damage", JObj [ ("type", JStr ""); ("element", JStr "");
                           ("value", JNum 0); ("ap", JObj [ ("value", JNum 0) ]);
                           ("attribute", JStr "") ]);
         ("opposed", JObj [ ("type", JStr ""); ("attribute", JStr "");
                            ("attribute2", JStr ""); ("skill", JStr "");
                            ("mod", JNum 0); ("description", JStr "") ]) ].

(** The two non-empty patches the Item migrator can return. *)
Definition action_patch : obj :=
  [("data", JObj [("action", default_action)])].

Definition action_capacity_patch : obj :=
  [("data", JObj [("action", default_action); ("capacity", JNum 0)])].

Definition has_action_rule (ty : option json) : bool :=
  includes ["quality"; "cyberware"] ty.

Definition is_cyberware (ty : option json) : bool :=
  includes ["cyberware"] ty.

(** ** Tokens of a legacy [specs] string *)

Fixpoint no_delim (t : string) : bool :=
  match t with
  | EmptyString => true
  | String c t' => negb (is_delim c) && no_delim t'
  end.

(** The string is over or goes on with a delimiter. *)
Definition at_boundary (s : string) : bool :=
  match s with
  | EmptyString => true
  | String c _ => is_delim c
  end.

(** [Tokens s ts]: [ts] are, in order, the maximal pieces of [s] free of
    delimiters; the pieces are taken as they stand, blanks included. *)
Inductive Tokens : string -> list string -> Prop :=
| Tokens_end : Tokens "" []
| Tokens_delim c s ts :
    is_delim c = true -> Tokens s ts -> Tokens (String c s) ts
| Tokens_token t s ts :
    t <> "" -> no_delim t = true -> at_boundary s = true ->
    Tokens s ts -> Tokens (t ++ s)%string (t :: ts).

Definition is_blank (c : ascii) : bool :=
  Ascii.eqb c " "%char || Ascii.eqb c "009"%char
  || Ascii.eqb c "010"%char || Ascii.eqb c "013"%char.

Fixpoint last_char (c : ascii) (s : string) : ascii :=
  match s with
  | EmptyString => c
  | String c' s' => last_char c' s'
  end.

(** A string that [trim] would leave as it is. *)
Definition trimmed (s : string) : bool :=
  match s with
  | EmptyString => true
  | String c s' => negb (is_blank c) && negb (is_blank (last_char c s'))
  end.

(** ** Skill groups *)

(** The six groups of the skill-specs rule: the key written into the patch
    and the path read from the Actor. *)
Definition skill_groups : list (string * list string) :=
  [ ("data.skills.active", ["data"; "skills"; "active"]);
    ("data.skills.knowledge.street.value",
     ["data"; "skills"; "knowledge"; "street"; "value"]);
    ("data.skills.knowledge.professional.value",
     ["data"; "skills"; "knowledge"; "professional"; "value"]);
    ("data.skills.knowledge.academic.value",
     ["data"; "skills"; "knowledge"; "academic"; "value"]);
    ("data.skills.knowledge.interests.value",
     ["data"; "skills"; "knowledge"; "interests"; "value"]);
    ("data.skills.language.value", ["data"; "skills"; "language"; "value"]) ].

(** The entry a skill contributes to the patch of its group: one entry
    [{specs: tokens}] when its [specs] is a legacy string, none otherwise. *)
Definition split_entry (kv : string * json) : list (string * json) :=
  match get (Some (snd kv)) "specs" with
  | Ok (Some (JStr s)) =>
      [(fst kv, JObj [("specs", JArr (map JStr (split_specs s)))])]
  | _ => []
  end.

Definition legacy_entries (g : obj) : obj := flat_map split_entry g.

Definition is_legacy (kv : string * json) : bool :=
  match get (Some (snd kv)) "specs" with
  | Ok (Some (JStr _)) => true
  | _ => false
  end.

(** The [specs] of a skill is a string or an array. *)
Definition specs_ok (kv : string * json) : bool :=
  match get (Some (snd kv)) "specs" with
  | Ok (Some (JStr _)) | Ok (Some (JArr _)) => true
  | _ => false
  end.

(** Assigning the new key [k] to [o] puts it last. *)
Definition appends (k : string) (o : obj) : bool :=
  negb (obj_has k o) && negb (String.eqb k "__proto__")
  && match array_index k with
     | None => true
     | Some n =>
         forallb (fun k' => match array_index k' with
                            | Some m => (m <? n)%N
                            | None => false
                            end) (keys o)
     end.

Fixpoint ordered_after (seen o : obj) : bool :=
  match o with
  | [] => true
  | (k, v) :: o' => appends k seen && ordered_after (seen ++ [(k, v)]) o'
  end.

(** The own properties of [o] stand in the order in which an object
    enumerates them: no key twice, array indices first and ascending, then
    the other keys; ["__proto__"] is not among them. *)
Definition js_ordered (o : obj) : bool := ordered_after [] o.

(** One pass of [migrate_group] over a table of groups. *)
Definition migrate_groups (actor : json) (gs : list (string * list string))
    (u : obj) : result obj :=
  reduce (fun u kp => migrate_group actor (fst kp) (snd kp) u) gs u.

(** Each of the six groups of the Actor is an object in enumeration order
    whose skills all have a string or an array as [specs]. *)
Definition skills_well_formed (actor : json) : bool :=
  forallb (fun kp : string * list string =>
             match get_path (Some actor) (snd kp) with
             | Ok (Some (JObj g)) => js_ordered g && forallb specs_ok g
             | _ => false
             end) skill_groups.

(** ** Sample documents *)

Definition no_skills : json := JObj [("value", JObj [])].

(** An Actor in the legacy shape: scalar overflow, one skill still carrying
    a string, one owned Item without action block. *)
Definition street_samurai : json :=
  JObj [ ("name", JStr "Street Samurai");
         ("type", JStr "character");
         ("data",
          JObj [ ("track",
                  JObj [("physical",
                         JObj [("value", JNum 0); ("overflow", JNum 0)])]);
                 ("skills",
                  JObj [ ("active",
                          JObj [ ("pistols",
                                  JObj [("value", JNum 4);
                                        ("specs", JArr [JStr "Semi-Automatics"])]);
                                 ("blades",
                                  JObj [("value", JNum 3);
                                        ("specs", JStr "Knives, Swords")]) ]);
                         ("knowledge",
                          JObj [ ("street", no_skills);
                                 ("professional", no_skills);
                                 ("academic", no_skills);
                                 ("interests", no_skills) ]);
                         ("language",
                          JObj [("value",
                                 JObj [("english", JObj [("specs", JStr "")])])])
                       ]) ]);
         ("items",
          JArr [ JObj [("name", JStr "Ares Predator"); ("type", JStr "weapon");
                       ("data", JObj [])];
                 JObj [("name", JStr "Ambidextrous"); ("type", JStr "quality");
                       ("data", JObj [("description", JStr "")])] ]) ].

(** The same Actor once migrated. *)
Definition migrated_samurai : json :=
  JObj [ ("name", JStr "Street Samurai");
         ("type", JStr "character");
         ("data",
          JObj [ ("track",
                  JObj [("physical",
                         JObj [("value", JNum 0);
                               ("overflow",
                                JObj [("value", JNum 0); ("max", JNum 0)])])]);
                 ("skills",
                  JObj [ ("active",
                          JObj [ ("pistols",
                                  JObj [("value", JNum 4);
                                        ("specs", JArr [JStr "Semi-Automatics"])]);
                                 ("blades",
                                  JObj [("value", JNum 3);
                                        ("specs",
                                         JArr [JStr "Knives"; JStr " Swords"])]) ]);
                         ("knowledge",
                          JObj [ ("street", no_skills);
                                 ("professional", no_skills);
                                 ("academic", no_skills);
                                 ("interests", no_skills) ]);
                         ("language",
                          JObj [("value",
                                 JObj [("english", JObj [("specs", JArr [])])])])
                       ]) ]);
         ("items",
          JArr [ JObj [("name", JStr "Ares Predator"); ("type", JStr "weapon");
                       ("data", JObj [])];
                 JObj [("name", JStr "Ambidextrous"); ("type", JStr "quality");
                       ("data", JObj [("description", JStr "");
                                      ("action", default_action)])] ]) ].

(** A partial Actor: the knowledge and language groups are absent. *)
Definition partial_actor : json :=
  JObj [ ("name", JStr "Spirit");
         ("type", JStr "spirit");
         ("data", JObj [("skills", JObj [("active", JObj [])])]) ].

(** ** Owned Items *)

Definition plain_item (i : json) : bool :=
  match i with
  | JObj o => plain_keys o
  | _ => true
  end.

(** [i'] is [i] with the fields of the patch [u] laid over it: under [data]
    the fields of the patch have the values of the patch and the other
    fields those of [i]; outside [data] nothing differs. *)
Definition patch_overrides (i : json) (u : obj) (i' : json) : Prop :=
  (forall k v, own_path (Some (JObj u)) ["data"; k] = Some v ->
               own_path (Some i') ["data"; k] = Some v)
  /\ (forall k, own_path (Some (JObj u)) ["data"; k] = None ->
                own_path (Some i') ["data"; k] = own_path (Some i) ["data"; k])
  /\ (forall k, k <> "data" -> own_path (Some i') [k] = own_path (Some i) [k]).

(** How the Actor migrator treats one owned Item [i], [i'] being the Item at
    the same place of the rebuilt sequence. *)
Definition owned_item_result (h : Host) (i i' : json) : Prop :=
  exists u,
    migrateItemData i = Ok u
    /\ ((u = [] /\ i' = i)
        \/ (u <> [] /\ mergeObject h i u = Ok i'
             /\ (HostLaws h -> plain_item i = true -> patch_overrides i u i'))).

Definition item_changes (i : json) : Prop :=
  exists u, migrateItemData i = Ok u /\ u <> [].

Definition quality_without_action : json :=
  JObj [("name", JStr "Ambidextrous"); ("type", JStr "quality");
        ("data", JObj [("description", JStr "")])].

Definition weapon_without_action : json :=
  JObj [("name", JStr "Ares Predator"); ("type", JStr "weapon");
        ("data", JObj [])].

Definition bare_cyberware : json :=
  JObj [("name", JStr "Datajack"); ("type", JStr "cyberware");
        ("data", JObj [("essence", JNum 0)])].

Definition cyberware_with_capacity : json :=
  JObj [("name", JStr "Cyberarm"); ("type", JStr "cyberware");
        ("data", JObj [("capacity", JNum 4)])].

Definition current_cyberware : json :=
  JObj [("name", JStr "Cybereyes"); ("type", JStr "cyberware");
        ("data", JObj [("action", spec_action_literal); ("capacity", JNum 2)])].

Definition cyberware_with_action : json :=
  JObj [("name", JStr "Smartlink"); ("type", JStr "cyberware");
        ("data", JObj [("action", spec_action_literal)])].

(** The patch the Actor migrator returns for [street_samurai] on the
    reference host. *)
Definition samurai_patch : obj :=
  Eval vm_compute in
    match migrateActorData (ref_host []) street_samurai with
    | Ok p => p
    | Throw _ => []
    end.

(** ** What the orchestrator sends to the host *)

(** The update calls of a trace, accepted or not. *)
Definition update_calls (tr : list event) : list (string * entity * obj) :=
  flat_map (fun ev => match ev with
                      | UpdateCall kind e p _ => [(kind, e, p)]
                      | _ => []
                      end) tr.

Definition pack_update_calls (tr : list event) : list (pack * obj) :=
  flat_map (fun ev => match ev with
                      | PackUpdateCall p u _ => [(p, u)]
                      | _ => []
                      end) tr.

(** The update call an entity of the world is due: one when its migrator
    returns a patch that is not empty, none otherwise. *)
Definition planned_update (h : Host) (kind : string) (e : entity)
  : list (string * entity * obj) :=
  match migrateEntityData h kind (ent_data e) with
  | Ok u => if isObjectEmpty u then [] else [(kind, e, u)]
  | Throw _ => []
  end.

(** The same for an entity of a pack; the patch sent carries the [_id]. *)
Definition planned_pack_update {W} (io : HostIO W) (h : Host) (p : pack)
    (ent : entity) : list (pack * obj) :=
  match migrateEntityData h (pack_entity p) (ent_data ent) with
  | Ok u =>
      if isObjectEmpty u then []
      else match expandObject io u with
           | Ok _ => [(p, obj_set "_id" (JStr (ent_id ent)) u)]
           | Throw _ => []
           end
  | Throw _ => []
  end.

(** A host whose packs can always be migrated and loaded. *)
Definition packs_reachable {W} (io : HostIO W) : Prop :=
  forall p w,
    snd (pack_migrate io p w) = Ok tt
    /\ exists content, snd (pack_getContent io p w) = Ok content.

Definition stale_quality : entity :=
  {| ent_id := "q1"; ent_name := "Ambidextrous";
     ent_data := quality_without_action |}.

Definition current_weapon : entity :=
  {| ent_id := "w1"; ent_name := "Ares Predator";
     ent_data := weapon_without_action |}.

(** An Item on which the migrator throws: cyberware with its action block
    and no capacity. *)
Definition poisoned_cyberware : entity :=
  {| ent_id := "c1"; ent_name := "Smartlink";
     ent_data := cyberware_with_action |}.

Definition stale_cyberware : entity :=
  {| ent_id := "c2"; ent_name := "Datajack"; ent_data := bare_cyberware |}.

Definition broken_pack : pack :=
  {| pack_package := "world"; pack_entity := "Item";
     pack_collection := "world.broken" |}.

Definition gear_pack : pack :=
  {| pack_package := "world"; pack_entity := "Item";
     pack_collection := "world.gear" |}.

(** A host without state that accepts every update; the pack
    [world.broken] cannot be reached, every other pack holds one stale
    Item. *)
Definition sample_io : HostIO unit :=
  {| entity_update := fun _ _ _ w => (w, Ok tt);
     pack_migrate := fun p w =>
       (w, if String.eqb (pack_collection p) "world.broken"
           then Throw (HostError "pack unreachable") else Ok tt);
     pack_getContent := fun _ w => (w, Ok [stale_quality]);
     pack_updateEntity := fun _ _ w => (w, Ok tt);
     expandObject := fun u => Ok (JObj u) |}.

(** The same host with every pack in reach. *)
Definition reachable_io : HostIO unit :=
  {| entity_update := fun _ _ _ w => (w, Ok tt);
     pack_migrate := fun _ w => (w, Ok tt);
     pack_getContent := fun _ w => (w, Ok [stale_quality]);
     pack_updateEntity := fun _ _ w => (w, Ok tt);
     expandObject := fun u => Ok (JObj u) |}.

Definition sample_game (ps : list pack) : game :=
  {| version := "0.5.0";
     actors := [];
     items := [stale_cyberware; poisoned_cyberware; stale_quality];
     scenes := [];
     packs := ps |}.

(** The computation [m], started in [s], returns normally and adds [evs] to
    the trace. *)
Definition runs_to {W} (m : M W unit) (s : W * list event) (evs : list event)
  : Prop :=
  exists w', m s = ((w', snd s ++ evs), Ok tt).

(** The entities the update calls of a trace target. *)
Definition updated_entities (tr : list event) : list entity :=
  map (fun c : string * entity * obj => snd (fst c)) (update_calls tr).

(** ** Definitions for the further properties *)

(** The [specs] of a skill is an array. *)
Definition specs_array (kv : string * json) : bool :=
  match get (Some (snd kv)) "specs" with
  | Ok (Some (JArr _)) => true
  | _ => false
  end.

(** Each of the six groups of the Actor is an object whose skills all have
    an array as [specs]. *)
Definition skills_migrated (actor : json) : bool :=
  forallb (fun kp : string * list string =>
             match get_path (Some actor) (snd kp) with
             | Ok (Some (JObj g)) => forallb specs_array g
             | _ => false
             end) skill_groups.

(** The Actor has no owned Items to migrate: [items] is falsy, or a
    sequence of Items whose patch is empty. *)
Definition items_current (actor : json) : bool :=
  match get (Some actor) "items" with
  | Ok x =>
      negb (truthy x)
      || match x with
         | Some (JArr its) =>
             forallb (fun i => match migrateItemData i with
                               | Ok [] => true
                               | _ => false
                               end) its
         | _ => false
         end
  | Throw _ => false
  end.

(** The patch of an Actor that needs nothing: the six groups, all empty. *)
Definition idle_patch : obj :=
  map (fun kp : string * list string => (fst kp, JObj [])) skill_groups.

(** An Actor without skills and without Items whose overflow is [v]. *)
Definition actor_with_overflow (v : json) : json :=
  JObj [ ("name", JStr "Ganger");
         ("type", JStr "character");
         ("data",
          JObj [ ("track", JObj [("physical", JObj [("overflow", v)])]);
                 ("skills",
                  JObj [ ("active", JObj []);
                         ("knowledge",
                          JObj [ ("street", no_skills);
                                 ("professional", no_skills);
                                 ("academic", no_skills);
                                 ("interests", no_skills) ]);
                         ("language", no_skills) ]) ]) ].

(** An Actor one skill of which has a number as [specs]. *)
Definition actor_with_numeric_specs : json :=
  JObj [ ("name", JStr "Decker");
         ("data",
          JObj [ ("skills",
                  JObj [ ("active",
                          JObj [("hacking", JObj [("specs", JNum 2)])]);
                         ("knowledge",
                          JObj [ ("street", no_skills);
                                 ("professional", no_skills);
                                 ("academic", no_skills);
                                 ("interests", no_skills) ]);
                         ("language", no_skills) ]) ]) ].



(** Two records of where a token stands. *)
Definition token_linked_fields : obj :=
  [ ("name", JStr "Street Samurai"); ("x", JNum 100);
    ("actorId", JStr "a1"); ("actorLink", JBool true);
    ("actorData", JObj [("data", JObj [("attributes", JObj [])])]) ].

Definition token_linked : json := JObj token_linked_fields.

Definition token_orphan_fields : obj :=
  [ ("name", JStr "Ghoul"); ("x", JNum 300);
    ("actorId", JStr "gone"); ("actorLink", JBool false);
    ("actorData", JObj [("data", JObj [("attributes", JObj [])])]) ].

Definition token_orphan : json := JObj token_orphan_fields.

(** A token whose override holds the one field that differs from its
    Actor. *)
Definition wounded_override : json :=
  JObj [("data",
         JObj [("track", JObj [("physical", JObj [("value", JNum 2)])])])].

Definition token_partial_fields : obj :=
  [ ("name", JStr "Ganger 2"); ("x", JNum 200);
    ("actorId", JStr "a1"); ("actorLink", JBool false);
    ("actorData", wounded_override) ].

Definition token_partial_override : json := JObj token_partial_fields.

Definition alley_scene (tokens : list json) : json :=
  JObj [ ("name", JStr "Alley"); ("tokens", JArr tokens) ].

(** The string without its delimiters. *)
Fixpoint strip_delims (s : string) : string :=
  match s with
  | EmptyString => EmptyString
  | String c s' =>
      if is_delim c then strip_delims s' else String c (strip_delims s')
  end.

(** A token as the split yields them: not empty and free of delimiters. *)
Definition clean_token (t : string) : Prop := t <> "" /\ no_delim t = true.

Fixpoint all_delims (s : string) : bool :=
  match s with
  | EmptyString => true
  | String c s' => is_delim c && all_delims s'
  end.

(** [m] adds to the trace only events that satisfy [Q], whether it returns
    or throws. *)
Definition emits_only {W A} (Q : event -> Prop) (m : M W A) : Prop :=
  forall s, exists w' evs r, m s = ((w', snd s ++ evs), r) /\ Forall Q evs.



(** An update call to a pack goes to a pack of the world. *)
Definition to_world_pack (ev : event) : Prop :=
  match ev with
  | PackUpdateCall p _ _ => world_pack p = true
  | _ => True
  end.

(** The game with the packs [migrateWorld] selects only. *)
Definition world_packs_only (g : game) : game :=
  {| version := version g; actors := actors g; items := items g;
     scenes := scenes g; packs := filter world_pack (packs g) |}.

(** The migrator of the kind returns a patch for the entity. *)
Definition migrates (h : Host) (kind : string) (e : entity) : bool :=
  match migrateEntityData h kind (ent_data e) with
  | Ok _ => true
  | Throw _ => false
  end.

Definition samurai_entity : entity :=
  {| ent_id := "a1"; ent_name := "Street Samurai";
     ent_data := migrated_samurai |}.

Definition spirit_entity : entity :=
  {| ent_id := "a2"; ent_name := "Spirit"; ent_data := partial_actor |}.


(** The update call [c] to the pack [p] is the one due to an entity of
    [content]: the patch of its migrator with the [_id] of the entity put
    in. *)
Definition carries_id {W} (io : HostIO W) (h : Host) (p : pack)
    (content : list entity) (c : pack * obj) : Prop :=
  fst c = p
  /\ exists ent u,
       In ent content
       /\ migrateEntityData h (pack_entity p) (ent_data ent) = Ok u
       /\ u <> []
       /\ obj_get "_id" (snd c) = Some (JStr (ent_id ent))
       /\ forall k, k <> "_id" -> obj_get k (snd c) = obj_get k u.

(** The keys a patch of the Actor migrator can have. *)
Definition actor_patch_keys : list string :=
  [ "data.track.physical.overflow.value";
    "data.track.physical.overflow.max" ]
  ++ map fst skill_groups ++ ["items"].

(* ================================================================== *)
(** * Properties of the primitives *)
(* ================================================================== *)

Arguments get : simpl never.

Ltac eqb_cases k k' :=
  let E := fresh "E" in
  destruct (String.eqb k k') eqn:E;
  [ apply String.eqb_eq in E | apply String.eqb_neq in E ].

Lemma bind_ok {A B} (r : result A) (f : A -> result B) (b : B) :
  bind r f = Ok b -> exists a, r = Ok a /\ f a = Ok b.
Proof.
  destruct r as [a|e]; simpl; intros H; [ eauto | discriminate ].
Qed.

Lemma throws_bind_left {A B} (r : result A) (f : A -> result B) :
  throws r -> throws (bind r f).
Proof.
  intros [e ->]. exists e. reflexivity.
Qed.

Lemma throws_bind_right {A B} (r : result A) (f : A -> result B) :
  (forall a, throws (f a)) -> throws (bind r f).
Proof.
  intros H. destruct r as [a|e]; simpl; [ apply H | exists e; reflexivity ].
Qed.

Lemma obj_get_app (k : string) (o o' : obj) :
  obj_get k (o ++ o') =
  match obj_get k o with Some x => Some x | None => obj_get k o' end.
Proof.
  induction o as [|[k1 v1] o IH]; simpl; [ reflexivity | ].
  destruct (String.eqb k k1); [ reflexivity | exact IH ].
Qed.

Section ObjectLemmas.

Variables (k : string) (v : json).

Lemma obj_get_replace_same (o : obj) :
  obj_get k o <> None -> obj_get k (obj_replace k v o) = Some v.
Proof.
  induction o as [|[k1 v1] o IH]; simpl; [ congruence | ].
  destruct (String.eqb k k1) eqn:E; simpl.
  - rewrite String.eqb_refl. reflexivity.
  - rewrite E. exact IH.
Qed.

Lemma obj_get_insert_index_same (n : N) (o : obj) :
  obj_get k (obj_insert_index n k v o) = Some v \/ obj_get k o <> None.
Proof.
  induction o as [|[k1 v1] o IH]; simpl.
  - rewrite String.eqb_refl. left. reflexivity.
  - destruct (String.eqb k k1) eqn:E.
    + right. discriminate.
    + destruct (array_index k1) as [m|]; simpl.
      * destruct (m <? n)%N; simpl.
        -- rewrite E. exact IH.
        -- rewrite String.eqb_refl. left. reflexivity.
      * rewrite String.eqb_refl. left. reflexivity.
Qed.

Lemma obj_get_set_same (o : obj) :
  k <> "__proto__" -> obj_get k (obj_set k v o) = Some v.
Proof.
  intros Hk. unfold obj_set, obj_has.
  destruct (obj_get k o) as [x|] eqn:G.
  - apply obj_get_replace_same. congruence.
  - apply String.eqb_neq in Hk. rewrite Hk.
    destruct (array_index k) as [n|].
    + destruct (obj_get_insert_index_same n o) as [H|H]; congruence.
    + rewrite obj_get_app, G. simpl. rewrite String.eqb_refl. reflexivity.
Qed.

Variable k' : string.
Hypothesis Hkk' : k' <> k.

Lemma obj_get_replace_other (o : obj) :
  obj_get k' (obj_replace k v o) = obj_get k' o.
Proof.
  induction o as [|[k1 v1] o IH]; simpl; [ reflexivity | ].
  destruct (String.eqb k k1) eqn:E; simpl.
  - apply String.eqb_eq in E. subst k1.
    apply String.eqb_neq in Hkk'. rewrite Hkk'. reflexivity.
  - destruct (String.eqb k' k1); [ reflexivity | exact IH ].
Qed.

Lemma obj_get_insert_index_other (n : N) (o : obj) :
  obj_get k' (obj_insert_index n k v o) = obj_get k' o.
Proof.
  pose proof Hkk' as Hne. apply String.eqb_neq in Hne.
  induction o as [|[k1 v1] o IH]; simpl.
  - rewrite Hne. reflexivity.
  - destruct (array_index k1) as [m|]; simpl.
    + destruct (m <? n)%N; simpl.
      * destruct (String.eqb k' k1); [ reflexivity | exact IH ].
      * rewrite Hne. reflexivity.
    + rewrite Hne. reflexivity.
Qed.

Lemma obj_get_set_other (o : obj) :
  obj_get k' (obj_set k v o) = obj_get k' o.
Proof.
  unfold obj_set. destruct (obj_has k o).
  - apply obj_get_replace_other.
  - destruct (String.eqb k "__proto__"); [ reflexivity | ].
    destruct (array_index k) as [n|].
    + apply obj_get_insert_index_other.
    + rewrite obj_get_app. simpl.
      apply String.eqb_neq in Hkk'. rewrite Hkk'.
      destruct (obj_get k' o); reflexivity.
Qed.

End ObjectLemmas.

Lemma obj_get_keys (k : string) (o : obj) :
  obj_get k o <> None -> In k (keys o).
Proof.
  induction o as [|[k1 v1] o IH]; simpl; [ congruence | ].
  eqb_cases k k1; [ left; congruence | right; exact (IH H) ].
Qed.

Lemma keys_obj_get (k : string) (o : obj) :
  In k (keys o) -> obj_get k o <> None.
Proof.
  induction o as [|[k1 v1] o IH]; simpl; [ tauto | ].
  intros [->|H]; [ rewrite String.eqb_refl; discriminate | ].
  destruct (String.eqb k k1); [ discriminate | exact (IH H) ].
Qed.

(* ================================================================== *)
(** * The Item migrator, case by case *)
(* ================================================================== *)

Lemma is_cyberware_has_action_rule (ty : option json) :
  is_cyberware ty = true -> has_action_rule ty = true.
Proof.
  unfold is_cyberware, has_action_rule, includes.
  destruct ty as [[| | |s| |]|]; simpl; try discriminate.
  destruct (String.eqb s "cyberware"); [ intros _; apply orb_true_r | discriminate ].
Qed.

Section ItemCases.

Variables (item : json) (ty : option json).
Hypothesis Hty : get (Some item) "type" = Ok ty.

Lemma migrateItemData_other_type :
  has_action_rule ty = false -> migrateItemData item = Ok [].
Proof.
  intros Hr.
  assert (Hc : is_cyberware ty = false).
  { destruct (is_cyberware ty) eqn:E; [ | reflexivity ].
    apply is_cyberware_has_action_rule in E. congruence. }
  unfold migrateItemData, _migrateItemsAddActions, _migrateItemsAddCapacity.
  unfold has_action_rule, is_cyberware in *.
  repeat (progress (simpl; rewrite ?Hty, ?Hr, ?Hc)). reflexivity.
Qed.

Lemma migrateItemData_no_data (e : error) :
  has_action_rule ty = true ->
  get (Some item) "data" = Throw e -> migrateItemData item = Throw e.
Proof.
  intros Hr Hd.
  unfold migrateItemData, _migrateItemsAddActions.
  unfold has_action_rule in Hr.
  repeat (progress (simpl; rewrite ?Hty, ?Hr, ?Hd)). reflexivity.
Qed.

Variable d : option json.
Hypothesis Hd : get (Some item) "data" = Ok d.

Lemma migrateItemData_data_unreadable (e : error) :
  has_action_rule ty = true ->
  get d "action" = Throw e -> migrateItemData item = Throw e.
Proof.
  intros Hr Ha.
  unfold migrateItemData, _migrateItemsAddActions.
  unfold has_action_rule in Hr.
  repeat (progress (simpl; rewrite ?Hty, ?Hr, ?Hd, ?Ha)). reflexivity.
Qed.

Variable a : option json.
Hypothesis Ha : get d "action" = Ok a.

Lemma migrateItemData_quality :
  has_action_rule ty = true -> is_cyberware ty = false ->
  migrateItemData item =
  Ok (match a with None => action_patch | Some _ => [] end).
Proof.
  intros Hr Hc.
  unfold migrateItemData, _migrateItemsAddActions, _migrateItemsAddCapacity.
  unfold has_action_rule, is_cyberware in *.
  repeat (progress (simpl; rewrite ?Hty, ?Hr, ?Hd, ?Ha, ?Hc)).
  destruct a; repeat (progress (simpl; rewrite ?Hty, ?Hc)); reflexivity.
Qed.

Variable c : option json.
Hypothesis Hcap : get d "capacity" = Ok c.

Lemma migrateItemData_cyberware :
  is_cyberware ty = true ->
  migrateItemData item =
  match a, c with
  | None, None => Ok action_capacity_patch
  | None, Some _ => Ok action_patch
  | Some _, None => Throw TypeError
  | Some _, Some _ => Ok []
  end.
Proof.
  intros Hc. pose proof (is_cyberware_has_action_rule _ Hc) as Hr.
  unfold migrateItemData, _migrateItemsAddActions, _migrateItemsAddCapacity.
  unfold has_action_rule, is_cyberware in *.
  repeat (progress (simpl; rewrite ?Hty, ?Hr, ?Hd, ?Ha, ?Hc, ?Hcap)).
  destruct a; repeat (progress (simpl; rewrite ?Hty, ?Hc, ?Hd, ?Hcap));
    destruct c; reflexivity.
Qed.

End ItemCases.

Lemma get_action_capacity (d : option json) (a : option json) :
  get d "action" = Ok a -> exists c, get d "capacity" = Ok c.
Proof.
  destruct d as [[| | | | |o]|]; unfold get; intros H; try discriminate; eauto.
Qed.

(** Every patch of the Item migrator is one of three. *)
Lemma migrateItemData_cases (item : json) (u : obj) :
  migrateItemData item = Ok u ->
  u = [] \/ u = action_patch \/ u = action_capacity_patch.
Proof.
  intros H.
  destruct (get (Some item) "type") as [ty|e] eqn:Hty.
  2:{ unfold migrateItemData, _migrateItemsAddActions in H.
      rewrite Hty in H. discriminate. }
  destruct (has_action_rule ty) eqn:Hr.
  2:{ rewrite (migrateItemData_other_type item ty Hty Hr) in H.
      left. congruence. }
  destruct (get (Some item) "data") as [d|e] eqn:Hd.
  2:{ rewrite (migrateItemData_no_data item ty Hty e Hr Hd) in H. discriminate. }
  destruct (get d "action") as [a|e] eqn:Ha.
  2:{ rewrite (migrateItemData_data_unreadable item ty Hty d Hd e Hr Ha) in H.
      discriminate. }
  destruct (is_cyberware ty) eqn:Hc.
  - destruct (get_action_capacity d a Ha) as [c Hcap].
    rewrite (migrateItemData_cyberware item ty Hty d Hd a Ha c Hcap Hc) in H.
    destruct a, c; try discriminate; injection H as <-; auto.
  - rewrite (migrateItemData_quality item ty Hty d Hd a Ha Hr Hc) in H.
    destruct a; injection H as <-; auto.
Qed.

Lemma get_path_two (x : option json) (p q : string) (r : option json) :
  get_path x [p; q] = Ok r -> exists y, get x p = Ok y /\ get y q = Ok r.
Proof.
  simpl. intros H. apply bind_ok in H as [y [Hy H]].
  apply bind_ok in H as [z [Hz H]]. exists y. split; congruence.
Qed.

Lemma has_action_rule_iff (s : string) :
  has_action_rule (Some (JStr s)) = true <-> s = "quality" \/ s = "cyberware".
Proof.
  unfold has_action_rule, includes. simpl. rewrite orb_false_r, orb_true_iff.
  rewrite !String.eqb_eq. tauto.
Qed.

(* ================================================================== *)
(** * Action-block rule *)
(* ================================================================== *)

(** C8.  An Item of type "quality" or "cyberware" whose [data.action] reads
    as undefined gets a patch whose [data.action] is the default action
    literal of the specification, field for field; the patch holds nothing
    but that action and, for cyberware without capacity, the capacity.  An
    Item of any other type gets the empty patch, whatever its data. *)
Theorem action_block_rule (item : json) (ty : option json) :
  get (Some item) "type" = Ok ty ->
  (ty = Some (JStr "quality") \/ ty = Some (JStr "cyberware") ->
   get_path (Some item) ["data"; "action"] = Ok None ->
   exists p,
     migrateItemData item = Ok p
     /\ get_path (Some (JObj p)) ["data"; "action"] = Ok (Some spec_action_literal)
     /\ (p = action_patch \/ p = action_capacity_patch))
  /\ (ty <> Some (JStr "quality") -> ty <> Some (JStr "cyberware") ->
      migrateItemData item = Ok []).
Proof.
  intros Hty. split.
  - intros Hkind Hact.
    apply get_path_two in Hact as [d [Hd Ha]].
    assert (Hr : has_action_rule ty = true).
    { destruct Hkind as [-> | ->]; reflexivity. }
    destruct (is_cyberware ty) eqn:Hc.
    + destruct (get_action_capacity d None Ha) as [c Hcap].
      rewrite (migrateItemData_cyberware item ty Hty d Hd None Ha c Hcap Hc).
      destruct c; eexists; (split; [ reflexivity | split; [ reflexivity | auto ] ]).
    + rewrite (migrateItemData_quality item ty Hty d Hd None Ha Hr Hc).
      eexists. split; [ reflexivity | split; [ reflexivity | auto ] ].
  - intros Hq Hc. apply (migrateItemData_other_type item ty Hty).
    destruct ty as [[| | |s| |]|]; try reflexivity.
    destruct (has_action_rule (Some (JStr s))) eqn:E; [ | reflexivity ].
    apply has_action_rule_iff in E. destruct E as [-> | ->]; congruence.
Qed.

Lemma action_block_rule_witness :
  (exists p,
     migrateItemData quality_without_action = Ok p
     /\ get_path (Some (JObj p)) ["data"; "action"] = Ok (Some spec_action_literal)
     /\ (p = action_patch \/ p = action_capacity_patch))
  /\ migrateItemData weapon_without_action = Ok [].
Proof.
  split.
  - apply (action_block_rule quality_without_action (Some (JStr "quality")));
      [ reflexivity | left; reflexivity | reflexivity ].
  - apply (action_block_rule weapon_without_action (Some (JStr "weapon")));
      [ reflexivity | discriminate | discriminate ].
Defined.

(* ================================================================== *)
(** * Capacity rule *)
(* ================================================================== *)

(** C4, as the code has it.  For a cyberware Item whose [data.capacity] and
    [data.action] both read as undefined, the patch sets [data.capacity] to 0
    (next to the default action).  For a cyberware Item whose capacity is
    defined, the capacity rule adds nothing: the patch has no capacity entry,
    and it is empty exactly when [data.action] is defined too. *)
Theorem capacity_rule (item : json) (a c : option json) :
  get (Some item) "type" = Ok (Some (JStr "cyberware")) ->
  get_path (Some item) ["data"; "action"] = Ok a ->
  get_path (Some item) ["data"; "capacity"] = Ok c ->
  (a = None -> c = None ->
   exists p,
     migrateItemData item = Ok p
     /\ get_path (Some (JObj p)) ["data"; "capacity"] = Ok (Some (JNum 0)))
  /\ (c <> None ->
      exists p,
        migrateItemData item = Ok p
        /\ own_path (Some (JObj p)) ["data"; "capacity"] = None
        /\ (isObjectEmpty p = true <-> a <> None)).
Proof.
  intros Hty Hact Hcap.
  apply get_path_two in Hact as [d [Hd Ha]].
  apply get_path_two in Hcap as [d' [Hd' Hc]].
  assert (d' = d) by congruence. subst d'.
  pose proof (migrateItemData_cyberware item _ Hty d Hd a Ha c Hc eq_refl) as E.
  split.
  - intros -> ->. eexists. split; [ exact E | reflexivity ].
  - intros Hdef. destruct c as [c|]; [ | congruence ].
    destruct a as [a|]; eexists; (split; [ exact E | ]); simpl.
    + split; [ reflexivity | ]. split; [ discriminate | reflexivity ].
    + split; [ reflexivity | ]. split; [ discriminate | congruence ].
Qed.

Lemma capacity_rule_witness :
  (exists p,
     migrateItemData bare_cyberware = Ok p
     /\ get_path (Some (JObj p)) ["data"; "capacity"] = Ok (Some (JNum 0)))
  /\ (exists p,
        migrateItemData current_cyberware = Ok p
        /\ own_path (Some (JObj p)) ["data"; "capacity"] = None
        /\ (isObjectEmpty p = true <-> Some spec_action_literal <> None)).
Proof.
  split.
  - apply (capacity_rule bare_cyberware None None);
      reflexivity.
  - apply (capacity_rule current_cyberware (Some spec_action_literal)
             (Some (JNum 2)));
      [ reflexivity | reflexivity | reflexivity | discriminate ].
Defined.

(** C4 as stated fails: a cyberware Item whose capacity is 4 and which has
    no action block gets a patch that is not empty. *)
Lemma capacity_defined_patch_not_empty :
  get_path (Some cyberware_with_capacity) ["data"; "capacity"]
    = Ok (Some (JNum 4))
  /\ migrateItemData cyberware_with_capacity = Ok action_patch
  /\ isObjectEmpty action_patch = false.
Proof.
  repeat split.
Qed.

(* ================================================================== *)
(** * Order of the Item rules *)
(* ================================================================== *)

(** C3.  The capacity rule writes into [updateData.data] without creating
    it, so its outcome depends on what the action rule wrote before: on a
    bare cyberware Item the two rules succeed in the order of the source and
    throw in the other order, and on a cyberware Item that already has its
    action block the capacity rule throws. *)
Theorem item_rules_order_dependent :
  (u <- _migrateItemsAddActions bare_cyberware [] ;;
   _migrateItemsAddCapacity bare_cyberware u) = Ok action_capacity_patch
  /\ (u <- _migrateItemsAddCapacity bare_cyberware [] ;;
      _migrateItemsAddActions bare_cyberware u) = Throw TypeError
  /\ _migrateItemsAddCapacity bare_cyberware [] = Throw TypeError
  /\ _migrateItemsAddCapacity bare_cyberware [("data", JObj [])]
     = Ok [("data", JObj [("capacity", JNum 0)])]
  /\ migrateItemData cyberware_with_action = Throw TypeError.
Proof.
  repeat split.
Qed.

(* ================================================================== *)
(** * Splitting a legacy [specs] string *)
(* ================================================================== *)

Lemma append_empty_r (s : string) : (s ++ "")%string = s.
Proof.
  induction s as [|c s IH]; simpl; [ reflexivity | now rewrite IH ].
Qed.

Lemma append_assoc (s t u : string) :
  ((s ++ t) ++ u)%string = (s ++ (t ++ u))%string.
Proof.
  induction s as [|c s IH]; simpl; [ reflexivity | now rewrite IH ].
Qed.

Lemma no_delim_app (s t : string) :
  no_delim (s ++ t) = no_delim s && no_delim t.
Proof.
  induction s as [|c s IH]; simpl; [ reflexivity | ].
  rewrite IH. apply andb_assoc.
Qed.

Lemma nonempty_true (s : string) : nonempty s = true <-> s <> "".
Proof.
  unfold nonempty. rewrite negb_true_iff. apply String.eqb_neq.
Qed.

(** Whether a run of delimiters is under way only matters for an empty
    piece, which the filter drops. *)
Lemma split_runs_in_run (s : string) :
  filter nonempty (split_runs "" true s)
  = filter nonempty (split_runs "" false s).
Proof.
  destruct s as [|c s]; simpl; [ reflexivity | ].
  destruct (is_delim c); reflexivity.
Qed.

Lemma split_runs_tokens (s cur : string) :
  no_delim cur = true ->
  Tokens (cur ++ s) (filter nonempty (split_runs cur false s)).
Proof.
  revert cur. induction s as [|c s IH]; intros cur Hcur.
  - rewrite append_empty_r. simpl.
    destruct (nonempty cur) eqn:E.
    + rewrite <- (append_empty_r cur) at 1.
      apply Tokens_token; [ now apply nonempty_true | assumption | reflexivity | ].
      constructor.
    + unfold nonempty in E. apply negb_false_iff, String.eqb_eq in E.
      subst cur. constructor.
  - simpl. destruct (is_delim c) eqn:Hc.
    + simpl. rewrite split_runs_in_run.
      pose proof (IH "" eq_refl) as Hs. simpl in Hs.
      destruct (nonempty cur) eqn:E.
      * apply Tokens_token; [ now apply nonempty_true | assumption | exact Hc | ].
        now apply Tokens_delim.
      * unfold nonempty in E. apply negb_false_iff, String.eqb_eq in E.
        subst cur. now apply Tokens_delim.
    + replace (cur ++ String c s)%string
        with ((cur ++ String c "") ++ s)%string
        by (rewrite append_assoc; reflexivity).
      apply IH. rewrite no_delim_app, Hcur. simpl. now rewrite Hc.
Qed.

(** [split] keeps an empty piece at either end, as [String.prototype.split]
    does; the filter of the reducer drops it. *)
Example split_edge_pieces :
  split ",a,,b." = [""; "a"; "b"; ""] /\ split "" = [""]
  /\ split_specs ",a,,b." = ["a"; "b"].
Proof.
  repeat split.
Qed.

(** The code's split yields the tokens of the string. *)
Lemma split_specs_tokens (s : string) : Tokens s (split_specs s).
Proof.
  exact (split_runs_tokens s "" eq_refl).
Qed.

Lemma token_cut_unique (t1 : string) :
  forall t2 s1 s2,
    no_delim t1 = true -> no_delim t2 = true ->
    at_boundary s1 = true -> at_boundary s2 = true ->
    (t1 ++ s1)%string = (t2 ++ s2)%string -> t1 = t2 /\ s1 = s2.
Proof.
  induction t1 as [|c t1 IH]; intros [|c2 t2] s1 s2 H1 H2 B1 B2 E; simpl in *.
  - auto.
  - subst s1. simpl in B1. rewrite B1 in H2. discriminate.
  - subst s2. simpl in B2. rewrite B2 in H1. discriminate.
  - injection E as -> E.
    apply andb_true_iff in H1 as [_ H1]. apply andb_true_iff in H2 as [_ H2].
    destruct (IH t2 s1 s2 H1 H2 B1 B2 E) as [-> ->]. auto.
Qed.

(** The tokens of a string are determined. *)
Lemma Tokens_unique (s : string) (ts : list string) :
  Tokens s ts -> forall ts', Tokens s ts' -> ts' = ts.
Proof.
  induction 1 as [|c s ts Hc H IH|t s ts Ht Hn Hb H IH]; intros ts' H'.
  - inversion H' as [| |t' s' ts0 Ht' Hn' Hb' H0 E]; [ reflexivity | ].
    destruct t'; [ congruence | discriminate ].
  - inversion H' as [|c' s' ts0 Hc' H0|t' s' ts0 Ht' Hn' Hb' H0 E]; subst.
    + now apply IH.
    + destruct t' as [|c' t']; [ congruence | ].
      simpl in E. injection E as -> _. simpl in Hn'. rewrite Hc in Hn'.
      discriminate.
  - destruct t as [|c t]; [ congruence | ].
    inversion H' as [E|c' s' ts0 Hc' H0 E|t' s' ts0 Ht' Hn' Hb' H0 E].
    + subst. simpl in Hn. rewrite Hc' in Hn. discriminate.
    + destruct (token_cut_unique t' (String c t) s' s Hn' Hn Hb' Hb E)
        as [-> ->].
      f_equal. now apply IH.
Qed.

(** C6, as the code has it.  For a skill entry whose [specs] is a string,
    the reducer writes under the skill key an object whose [specs] is the
    array of the tokens of that string: the maximal pieces free of comma,
    slash, pipe and dot, empty pieces dropped, each piece as it stands (no
    trimming).  "Pistols,Pistols/Light" gives Pistols, Pistols, Light and
    the empty string gives no token.  For an entry whose [specs] is an
    array the reducer returns the running object unchanged. *)
Theorem skill_split (running : obj) (key : string) (val : json) :
  (forall s,
     get (Some val) "specs" = Ok (Some (JStr s)) ->
     exists ts,
       Tokens s ts
       /\ (forall ts', Tokens s ts' -> ts' = ts)
       /\ reducer running (key, val)
          = Ok (obj_set key (JObj [("specs", JArr (map JStr ts))]) running))
  /\ (forall l,
        get (Some val) "specs" = Ok (Some (JArr l)) ->
        reducer running (key, val) = Ok running)
  /\ split_specs "Pistols,Pistols/Light" = ["Pistols"; "Pistols"; "Light"]
  /\ split_specs "" = [].
Proof.
  split; [ | split; [ | split; reflexivity ] ].
  - intros s Hs. exists (split_specs s).
    split; [ apply split_specs_tokens | ].
    split; [ apply Tokens_unique, split_specs_tokens | ].
    unfold reducer. rewrite Hs. reflexivity.
  - intros l Hl. unfold reducer. rewrite Hl. reflexivity.
Qed.

Lemma skill_split_witness :
  (exists ts,
     Tokens "Automatics/Pistols" ts
     /\ (forall ts', Tokens "Automatics/Pistols" ts' -> ts' = ts)
     /\ reducer [] ("firearms", JObj [("specs", JStr "Automatics/Pistols")])
        = Ok (obj_set "firearms" (JObj [("specs", JArr (map JStr ts))]) []))
  /\ reducer [] ("blades", JObj [("specs", JArr [JStr "Knives"])]) = Ok [].
Proof.
  split.
  - apply (skill_split [] "firearms"
             (JObj [("specs", JStr "Automatics/Pistols")])).
    reflexivity.
  - apply (skill_split [] "blades" (JObj [("specs", JArr [JStr "Knives"])])
             ) with (l := [JStr "Knives"]).
    reflexivity.
Defined.

(** C6 as stated fails: the pieces are not trimmed.  The space after the
    comma of "Pistols, Pistols/Light" stays in the second token. *)
Lemma skill_split_keeps_blanks :
  reducer [] ("firearms", JObj [("specs", JStr "Pistols, Pistols/Light")])
  = Ok [("firearms",
         JObj [("specs", JArr [JStr "Pistols"; JStr " Pistols"; JStr "Light"])])]
  /\ forallb trimmed (split_specs "Pistols, Pistols/Light") = false.
Proof.
  split; reflexivity.
Qed.

(* ================================================================== *)
(** * Skill-specs rule *)
(* ================================================================== *)

Lemma obj_has_false (k : string) (o : obj) :
  obj_has k o = false <-> ~ In k (keys o).
Proof.
  unfold obj_has. split.
  - intros H Hin. apply keys_obj_get in Hin.
    destruct (obj_get k o); [ discriminate | congruence ].
  - intros H. destruct (obj_get k o) eqn:G; [ | reflexivity ].
    exfalso. apply H, obj_get_keys. congruence.
Qed.

Lemma keys_app (o o' : obj) : keys (o ++ o') = keys o ++ keys o'.
Proof.
  apply map_app.
Qed.

Lemma obj_insert_index_last (n : N) (k : string) (v : json) (o : obj) :
  forallb (fun k' => match array_index k' with
                     | Some m => (m <? n)%N
                     | None => false
                     end) (keys o) = true ->
  obj_insert_index n k v o = o ++ [(k, v)].
Proof.
  induction o as [|[k1 v1] o IH]; simpl; [ reflexivity | ].
  intros H. apply andb_true_iff in H as [H1 H2].
  destruct (array_index k1) as [m|]; [ | discriminate ].
  rewrite H1, (IH H2). reflexivity.
Qed.

Lemma obj_set_appends (k : string) (v : json) (o : obj) :
  appends k o = true -> obj_set k v o = o ++ [(k, v)].
Proof.
  unfold appends, obj_set. intros H.
  apply andb_true_iff in H as [H H3]. apply andb_true_iff in H as [H1 H2].
  apply negb_true_iff in H1, H2. rewrite H1, H2.
  destruct (array_index k) as [n|]; [ | reflexivity ].
  now apply obj_insert_index_last.
Qed.

Lemma appends_incl (k : string) (acc seen : obj) :
  incl (keys acc) (keys seen) -> appends k seen = true -> appends k acc = true.
Proof.
  unfold appends. intros Hincl H.
  apply andb_true_iff in H as [H H3]. apply andb_true_iff in H as [H1 H2].
  rewrite H2. apply negb_true_iff, obj_has_false in H1.
  assert (E : obj_has k acc = false) by (apply obj_has_false; auto).
  rewrite E. simpl.
  destruct (array_index k) as [n|]; [ | reflexivity ].
  rewrite forallb_forall in *. auto.
Qed.

Lemma reduce_reducer (o : obj) :
  forall seen acc,
    ordered_after seen o = true ->
    incl (keys acc) (keys seen) ->
    forallb specs_ok o = true ->
    reduce reducer o acc = Ok (acc ++ legacy_entries o).
Proof.
  induction o as [|[k v] o IH]; intros seen acc Hord Hincl Hok; simpl.
  - now rewrite app_nil_r.
  - simpl in Hord, Hok.
    apply andb_true_iff in Hord as [Hk Hord].
    apply andb_true_iff in Hok as [Hv Hok].
    unfold specs_ok in Hv. unfold split_entry. simpl in *.
    destruct (get (Some v) "specs") as [[[| | |s|l|]|]|]; try discriminate; simpl.
    + rewrite (obj_set_appends _ _ _ (appends_incl _ _ _ Hincl Hk)).
      rewrite (IH (seen ++ [(k, v)])); [ now rewrite <- app_assoc | assumption | | assumption ].
      rewrite !keys_app. apply incl_app_app; [ assumption | apply incl_refl ].
    + apply (IH (seen ++ [(k, v)])); [ assumption | | assumption ].
      rewrite keys_app. now apply incl_appl.
Qed.

Lemma legacy_entries_keys (g : obj) :
  keys (legacy_entries g) = keys (filter is_legacy g).
Proof.
  induction g as [|[k v] g IH]; simpl; [ reflexivity | ].
  unfold legacy_entries in *. simpl. rewrite keys_app, IH.
  unfold split_entry, is_legacy. simpl.
  destruct (get (Some v) "specs") as [[[| | |s|l|]|]|]; reflexivity.
Qed.

Lemma migrate_group_ok (actor : json) (key : string) (path : list string)
    (u g : obj) :
  get_path (Some actor) path = Ok (Some (JObj g)) ->
  js_ordered g = true -> forallb specs_ok g = true ->
  migrate_group actor key path u = Ok (obj_set key (JObj (legacy_entries g)) u).
Proof.
  intros Hp Hord Hok. unfold migrate_group. rewrite Hp. simpl.
  rewrite (reduce_reducer g [] [] Hord (incl_refl _) Hok). reflexivity.
Qed.

Lemma bind_ret_r {A} (r : result A) : bind r Ok = r.
Proof.
  destruct r; reflexivity.
Qed.

(** The six statements of the rule are one pass over the table of groups. *)
Lemma _migrateActorSkills_groups (actor : json) (u : obj) :
  _migrateActorSkills actor u = migrate_groups actor skill_groups u.
Proof.
  unfold _migrateActorSkills, migrate_groups, skill_groups. simpl.
  repeat match goal with
         | |- bind ?r _ = bind ?r _ => destruct r; simpl; [ | reflexivity ]
         end.
  now rewrite bind_ret_r.
Qed.

Lemma migrate_group_shape (actor : json) (key : string) (path : list string)
    (u u1 : obj) :
  migrate_group actor key path u = Ok u1 ->
  exists g, u1 = obj_set key (JObj g) u.
Proof.
  unfold migrate_group. intros H.
  apply bind_ok in H as [x [_ H]]. apply bind_ok in H as [es [_ H]].
  apply bind_ok in H as [g [_ H]]. exists g. congruence.
Qed.

Lemma migrate_groups_get_other (actor : json) (k : string)
    (gs : list (string * list string)) :
  forall u p,
    migrate_groups actor gs u = Ok p ->
    ~ In k (map fst gs) -> obj_get k p = obj_get k u.
Proof.
  unfold migrate_groups.
  induction gs as [|[key path] gs IH]; simpl; intros u p H Hk.
  - congruence.
  - apply bind_ok in H as [u1 [H1 H]].
    apply migrate_group_shape in H1 as [g ->].
    rewrite (IH _ _ H) by tauto.
    apply obj_get_set_other. intros ->. tauto.
Qed.

Lemma migrate_groups_ok (actor : json) (gs : list (string * list string)) :
  NoDup (map fst gs) -> ~ In "__proto__" (map fst gs) ->
  (forall kp, In kp gs ->
     match get_path (Some actor) (snd kp) with
     | Ok (Some (JObj g)) => js_ordered g && forallb specs_ok g
     | _ => false
     end = true) ->
  forall u,
  exists p,
    migrate_groups actor gs u = Ok p
    /\ forall key path g,
        In (key, path) gs ->
        get_path (Some actor) path = Ok (Some (JObj g)) ->
        obj_get key p = Some (JObj (legacy_entries g)).
Proof.
  unfold migrate_groups.
  induction gs as [|[key1 path1] gs IH]; simpl; intros Hnd Hproto Hwf u.
  - exists u. split; [ reflexivity | tauto ].
  - inversion Hnd as [|? ? Hnotin Hnd']; subst.
    pose proof (Hwf (key1, path1) (or_introl eq_refl)) as H1. simpl in H1.
    destruct (get_path (Some actor) path1) as [[[| | | | |g1]|]|] eqn:Hp1;
      try discriminate.
    apply andb_true_iff in H1 as [Hord Hok].
    rewrite (migrate_group_ok actor key1 path1 u g1 Hp1 Hord Hok). simpl.
    destruct (IH Hnd' (fun H => Hproto (or_intror H))
                (fun kp H => Hwf kp (or_intror H))
                (obj_set key1 (JObj (legacy_entries g1)) u)) as [p [Hp Hget]].
    exists p. split; [ exact Hp | ].
    intros key path g [E | Hin] Hpath.
    + injection E as <- <-.
      rewrite (migrate_groups_get_other actor key1 gs _ p Hp Hnotin).
      rewrite obj_get_set_same by (intros ->; tauto).
      congruence.
    + now apply (Hget key path g).
Qed.

Lemma skill_groups_keys :
  NoDup (map fst skill_groups) /\ ~ In "__proto__" (map fst skill_groups).
Proof.
  unfold skill_groups. simpl. split.
  - repeat (constructor; [ simpl; intuition discriminate | ]). constructor.
  - intuition discriminate.
Qed.

Lemma _migrateActorSkills_returns (actor : json) (u : obj) :
  skills_well_formed actor = true ->
  exists p, _migrateActorSkills actor u = Ok p.
Proof.
  intros Hwf. unfold skills_well_formed in Hwf. rewrite forallb_forall in Hwf.
  rewrite _migrateActorSkills_groups.
  destruct skill_groups_keys as [Hnd Hproto].
  destruct (migrate_groups_ok actor skill_groups Hnd Hproto Hwf u) as [p [Hp _]].
  eauto.
Qed.

(** C5, as the code has it.  When the six skill groups of an Actor are
    objects whose skills carry a string or an array as [specs], the rule
    returns a patch in which each group key holds an object with one entry
    per skill whose [specs] is a legacy string, in the order of the group's
    keys, each of the form [{specs: tokens}].  The skills whose [specs] is
    already an array are left out of the patch. *)
Theorem skill_specs_rule (actor : json) (updateData : obj) :
  skills_well_formed actor = true ->
  exists p,
    _migrateActorSkills actor updateData = Ok p
    /\ forall key path g,
        In (key, path) skill_groups ->
        get_path (Some actor) path = Ok (Some (JObj g)) ->
        obj_get key p = Some (JObj (legacy_entries g))
        /\ keys (legacy_entries g) = keys (filter is_legacy g).
Proof.
  intros Hwf. unfold skills_well_formed in Hwf. rewrite forallb_forall in Hwf.
  rewrite _migrateActorSkills_groups.
  destruct (migrate_groups_ok actor skill_groups) with (u := updateData)
    as [p [Hp Hget]].
  - unfold skill_groups. simpl.
    repeat (constructor; [ simpl; intuition discriminate | ]). constructor.
  - unfold skill_groups. simpl. intuition discriminate.
  - exact Hwf.
  - exists p. split; [ exact Hp | ].
    intros key path g Hin Hpath. split; [ now apply (Hget key path g) | ].
    apply legacy_entries_keys.
Qed.

Lemma skill_specs_rule_witness :
  exists p,
    _migrateActorSkills street_samurai [] = Ok p
    /\ forall key path g,
        In (key, path) skill_groups ->
        get_path (Some street_samurai) path = Ok (Some (JObj g)) ->
        obj_get key p = Some (JObj (legacy_entries g))
        /\ keys (legacy_entries g) = keys (filter is_legacy g).
Proof.
  apply (skill_specs_rule street_samurai []). reflexivity.
Defined.

(** C5 as stated fails: the key set of a group is not preserved.  The
    active group has the keys pistols and blades; the patch holds blades
    only, pistols being migrated already. *)
Lemma skill_specs_rule_drops_migrated_keys :
  (exists g,
     get_path (Some street_samurai) ["data"; "skills"; "active"]
       = Ok (Some (JObj g))
     /\ keys g = ["pistols"; "blades"])
  /\ (exists p,
        _migrateActorSkills street_samurai [] = Ok p
        /\ obj_get "data.skills.active" p
           = Some (JObj [("blades",
                          JObj [("specs", JArr [JStr "Knives"; JStr " Swords"])])])).
Proof.
  split; eexists; split; reflexivity.
Qed.

(* ================================================================== *)
(** * Overflow rule *)
(* ================================================================== *)

Lemma migrateActorData_overflow_first (h : Host) (actor : json) (p : obj) :
  migrateActorData h actor = Ok p ->
  exists u0,
    _migrateActorOverflow h actor [] = Ok u0
    /\ forall k, ~ In k (map fst skill_groups) -> k <> "items" ->
                 obj_get k p = obj_get k u0.
Proof.
  unfold migrateActorData. intros H.
  apply bind_ok in H as [u0 [H0 H]]. exists u0. split; [ exact H0 | ].
  apply bind_ok in H as [u1 [H1 H]].
  rewrite _migrateActorSkills_groups in H1.
  apply bind_ok in H as [its [_ H]].
  intros k Hk Hitems.
  rewrite <- (migrate_groups_get_other actor k skill_groups u0 u1 H1 Hk).
  destruct (negb (truthy its)); [ congruence | ].
  destruct its as [[| | | |l|]|]; try discriminate.
  apply bind_ok in H as [r [_ H]].
  destruct (existsb fst r); [ | congruence ].
  injection H as <-. now apply obj_get_set_other.
Qed.

(** C7.  On a host that keeps its contract, an Actor whose
    [data.track.physical.overflow] is the number 0 gets from the overflow rule
    the two entries [data.track.physical.overflow.value = 0] and
    [data.track.physical.overflow.max = 0], and they are in the patch of the
    Actor migrator; an Actor whose overflow is already an object gets nothing
    from the rule, and the patch of the Actor migrator has neither entry. *)
Theorem overflow_rule (h : Host) (actor : json) (updateData : obj) :
  HostLaws h ->
  (own_path (Some actor) ["data"; "track"; "physical"; "overflow"]
     = Some (JNum 0) ->
   _migrateActorOverflow h actor updateData
     = Ok (obj_set "data.track.physical.overflow.max" (JNum 0)
             (obj_set "data.track.physical.overflow.value" (JNum 0) updateData))
   /\ forall p,
        migrateActorData h actor = Ok p ->
        obj_get "data.track.physical.overflow.value" p = Some (JNum 0)
        /\ obj_get "data.track.physical.overflow.max" p = Some (JNum 0))
  /\ (forall o,
        own_path (Some actor) ["data"; "track"; "physical"; "overflow"]
          = Some (JObj o) ->
        _migrateActorOverflow h actor updateData = Ok updateData
        /\ forall p,
             migrateActorData h actor = Ok p ->
             obj_get "data.track.physical.overflow.value" p = None
             /\ obj_get "data.track.physical.overflow.max" p = None).
Proof.
  intros Hh.
  assert (Hread : forall v,
             own_path (Some actor) ["data"; "track"; "physical"; "overflow"]
               = Some v ->
             exists d, get (Some actor) "data" = Ok (Some d)
                       /\ getProperty h (Some d) "track.physical.overflow"
                          = Ok (Some v)).
  { intros v Hv. destruct actor as [| | | | |o]; try discriminate.
    simpl in Hv. destruct (obj_get "data" o) as [d|] eqn:Hd; [ | discriminate ].
    exists d. split; [ unfold get; now rewrite Hd | ].
    apply (getProperty_own h Hh); [ discriminate | exact Hv ]. }
  assert (Hkeys : forall k,
             k = "data.track.physical.overflow.value"
             \/ k = "data.track.physical.overflow.max" ->
             ~ In k (map fst skill_groups) /\ k <> "items").
  { intros k [-> | ->]; split; simpl; intuition discriminate. }
  split.
  - intros Hv. destruct (Hread _ Hv) as [d [Hd Hg]].
    assert (Hrule : forall u,
               _migrateActorOverflow h actor u
               = Ok (obj_set "data.track.physical.overflow.max" (JNum 0)
                       (obj_set "data.track.physical.overflow.value" (JNum 0) u))).
    { intros u. unfold _migrateActorOverflow. rewrite Hd. simpl. now rewrite Hg. }
    split; [ apply Hrule | ].
    intros p Hp. apply migrateActorData_overflow_first in Hp as [u0 [H0 Hsame]].
    rewrite Hrule in H0. injection H0 as <-.
    split.
    + rewrite Hsame by (apply Hkeys; auto).
      rewrite obj_get_set_other by discriminate.
      apply obj_get_set_same. discriminate.
    + rewrite Hsame by (apply Hkeys; auto).
      apply obj_get_set_same. discriminate.
  - intros o Hv. destruct (Hread _ Hv) as [d [Hd Hg]].
    assert (Hrule : forall u, _migrateActorOverflow h actor u = Ok u).
    { intros u. unfold _migrateActorOverflow. rewrite Hd. simpl. now rewrite Hg. }
    split; [ apply Hrule | ].
    intros p Hp. apply migrateActorData_overflow_first in Hp as [u0 [H0 Hsame]].
    rewrite Hrule in H0. injection H0 as <-.
    split; rewrite Hsame by (apply Hkeys; auto); reflexivity.
Qed.

Lemma walk_own_own_path (ps : list string) :
  forall x v, own_path x ps = Some v -> walk_own x ps = Ok (Some v).
Proof.
  induction ps as [|p ps IH]; intros x v H; simpl in *.
  - now subst.
  - destruct x as [[| | | | |o]|]; try discriminate.
    destruct (obj_get p o) as [y|]; [ now apply IH | discriminate ].
Qed.

(** The reference host keeps the contract. *)
Lemma ref_host_laws (known : list string) : HostLaws (ref_host known).
Proof.
  split; simpl.
  - intros x key v Hkey H. unfold ref_getProperty.
    apply String.eqb_neq in Hkey. rewrite Hkey.
    now apply walk_own_own_path.
  - intros o u Ho Hu _. unfold ref_mergeObject, expand_obj.
    rewrite Ho, Hu. reflexivity.
Qed.

Lemma overflow_rule_witness :
  (_migrateActorOverflow (ref_host []) street_samurai []
     = Ok (obj_set "data.track.physical.overflow.max" (JNum 0)
             (obj_set "data.track.physical.overflow.value" (JNum 0) []))
   /\ forall p,
        migrateActorData (ref_host []) street_samurai = Ok p ->
        obj_get "data.track.physical.overflow.value" p = Some (JNum 0)
        /\ obj_get "data.track.physical.overflow.max" p = Some (JNum 0))
  /\ (_migrateActorOverflow (ref_host []) migrated_samurai [] = Ok []
      /\ forall p,
           migrateActorData (ref_host []) migrated_samurai = Ok p ->
           obj_get "data.track.physical.overflow.value" p = None
           /\ obj_get "data.track.physical.overflow.max" p = None).
Proof.
  split.
  - apply (overflow_rule (ref_host []) street_samurai [] (ref_host_laws [])).
    reflexivity.
  - apply (overflow_rule (ref_host []) migrated_samurai [] (ref_host_laws []))
      with (o := [("value", JNum 0); ("max", JNum 0)]).
    reflexivity.
Defined.

(* ================================================================== *)
(** * A missing skill group *)
(* ================================================================== *)

Lemma get_path_undefined (ps : list string) :
  get_path None ps = Ok None \/ throws (get_path None ps).
Proof.
  destruct ps as [|p ps]; simpl; [ left; reflexivity | ].
  right. exists TypeError. reflexivity.
Qed.

Lemma get_path_missing (ps : list string) :
  forall x,
    own_path x ps = None ->
    get_path x ps = Ok None \/ throws (get_path x ps).
Proof.
  induction ps as [|p ps IH]; intros x H; simpl in *.
  - subst. left. reflexivity.
  - destruct x as [[| | | | |o]|]; unfold get; simpl;
      try (right; exists TypeError; reflexivity);
      try apply get_path_undefined.
    destruct (obj_get p o) as [y|]; [ now apply IH | apply get_path_undefined ].
Qed.

Lemma migrate_group_missing (actor : json) (key : string) (path : list string)
    (u : obj) :
  own_path (Some actor) path = None ->
  throws (migrate_group actor key path u).
Proof.
  intros H. unfold migrate_group.
  destruct (get_path_missing path _ H) as [E | E].
  - rewrite E. exists TypeError. reflexivity.
  - now apply throws_bind_left.
Qed.

Lemma migrate_groups_missing (actor : json) (key : string) (path : list string)
    (gs : list (string * list string)) :
  In (key, path) gs ->
  own_path (Some actor) path = None ->
  forall u, throws (migrate_groups actor gs u).
Proof.
  unfold migrate_groups. intros Hin Hmiss.
  induction gs as [|[k1 p1] gs IH]; simpl; intros u; [ contradiction | ].
  destruct Hin as [E | Hin].
  - injection E as -> ->. apply throws_bind_left.
    now apply migrate_group_missing.
  - apply throws_bind_right. intros a. now apply IH.
Qed.

(** C10.  When the path of one of the six skill groups does not lead to a
    value in the data of an Actor (the group or one of the objects above it
    is absent), the Actor migrator throws. *)
Theorem missing_skill_group_throws (h : Host) (actor : json) (key : string)
    (path : list string) :
  In (key, path) skill_groups ->
  own_path (Some actor) path = None ->
  throws (migrateActorData h actor).
Proof.
  intros Hin Hmiss. unfold migrateActorData.
  apply throws_bind_right. intros u0. apply throws_bind_left.
  rewrite _migrateActorSkills_groups.
  now apply (migrate_groups_missing actor key path).
Qed.

Lemma missing_skill_group_throws_witness :
  throws (migrateActorData (ref_host []) partial_actor).
Proof.
  apply (missing_skill_group_throws (ref_host []) partial_actor
           "data.skills.language.value"
           ["data"; "skills"; "language"; "value"]).
  - simpl. do 5 right. left. reflexivity.
  - reflexivity.
Defined.

(* ================================================================== *)
(** * Owned Items *)
(* ================================================================== *)

Lemma map_m_Forall2 {A B} (f : A -> result B) (l : list A) :
  forall r, map_m f l = Ok r -> Forall2 (fun x y => f x = Ok y) l r.
Proof.
  induction l as [|x l IH]; simpl; intros r H.
  - injection H as <-. constructor.
  - apply bind_ok in H as [y [Hy H]]. apply bind_ok in H as [ys [Hys H]].
    injection H as <-. constructor; [ exact Hy | now apply IH ].
Qed.

Lemma isObjectEmpty_nil (u : obj) : isObjectEmpty u = true <-> u = [].
Proof.
  destruct u; simpl; split; congruence.
Qed.

(** What a non-empty patch tells about the Item. *)
Lemma migrateItemData_changed (i : json) (u : obj) :
  migrateItemData i = Ok u -> u <> [] ->
  exists o d,
    i = JObj o /\ get (Some i) "data" = Ok d /\ get d "action" = Ok None
    /\ (u = action_patch
        \/ (u = action_capacity_patch /\ get d "capacity" = Ok None)).
Proof.
  intros H Hne.
  destruct (get (Some i) "type") as [ty|e] eqn:Hty.
  2:{ unfold migrateItemData, _migrateItemsAddActions in H.
      rewrite Hty in H. discriminate. }
  destruct (has_action_rule ty) eqn:Hr.
  2:{ rewrite (migrateItemData_other_type i ty Hty Hr) in H. congruence. }
  assert (Hobj : exists o, i = JObj o).
  { destruct i as [| | | | |o]; unfold get in Hty; try discriminate;
      try (injection Hty as <-; discriminate). eauto. }
  destruct Hobj as [o ->].
  destruct (get (Some (JObj o)) "data") as [d|e] eqn:Hd.
  2:{ rewrite (migrateItemData_no_data _ ty Hty e Hr Hd) in H. discriminate. }
  destruct (get d "action") as [a|e] eqn:Ha.
  2:{ rewrite (migrateItemData_data_unreadable _ ty Hty d Hd e Hr Ha) in H.
      discriminate. }
  exists o, d. split; [ reflexivity | ]. split; [ reflexivity | ].
  destruct (is_cyberware ty) eqn:Hc.
  - destruct (get_action_capacity d a Ha) as [c Hcap].
    rewrite (migrateItemData_cyberware _ ty Hty d Hd a Ha c Hcap Hc) in H.
    destruct a, c; try discriminate; injection H as <-; try congruence; auto.
  - rewrite (migrateItemData_quality _ ty Hty d Hd a Ha Hr Hc) in H.
    destruct a; injection H as <-; try congruence; auto.
Qed.

Lemma merge_plain_data (o du : obj) :
  merge_plain o [("data", JObj du)]
  = obj_set "data"
      (match obj_get "data" o with
       | Some (JObj x) => JObj (merge_into x (JObj du))
       | Some _ => JObj du
       | None => JObj (merge_into [] (JObj du))
       end) o.
Proof.
  unfold merge_plain. simpl.
  destruct (obj_get "data" o) as [[| | | | |x]|]; reflexivity.
Qed.

Lemma merge_into_nil (x : obj) : merge_into x (JObj []) = x.
Proof.
  reflexivity.
Qed.

Lemma merge_into_new_object (x : obj) (k : string) (vo u' : obj) :
  obj_get k x = None ->
  merge_into x (JObj ((k, JObj vo) :: u'))
  = merge_into (obj_set k (JObj (merge_into [] (JObj vo))) x) (JObj u').
Proof.
  intros H.
  change (merge_into x (JObj ((k, JObj vo) :: u')))
    with (merge_into
            match obj_get k x with
            | Some (JObj y) => obj_set k (JObj (merge_into y (JObj vo))) x
            | Some _ => obj_set k (JObj vo) x
            | None => obj_set k (JObj (merge_into [] (JObj vo))) x
            end (JObj u')).
  now rewrite H.
Qed.

Lemma merge_into_number (x : obj) (k : string) (n : Z) (u' : obj) :
  merge_into x (JObj ((k, JNum n) :: u'))
  = merge_into (obj_set k (JNum n) x) (JObj u').
Proof.
  reflexivity.
Qed.

Lemma default_action_copy :
  JObj (merge_into [] default_action) = default_action.
Proof.
  vm_compute. reflexivity.
Qed.

Lemma merge_into_action (x : obj) :
  obj_get "action" x = None ->
  merge_into x (JObj [("action", default_action)])
  = obj_set "action" default_action x.
Proof.
  intros H. rewrite <- default_action_copy at 2.
  unfold default_action at 1.
  rewrite (merge_into_new_object x "action" _ [] H).
  apply merge_into_nil.
Qed.

Lemma merge_into_action_capacity (x : obj) :
  obj_get "action" x = None ->
  merge_into x (JObj [("action", default_action); ("capacity", JNum 0)])
  = obj_set "capacity" (JNum 0) (obj_set "action" default_action x).
Proof.
  intros H. rewrite <- default_action_copy at 2.
  unfold default_action at 1.
  rewrite (merge_into_new_object x "action" _ _ H).
  rewrite merge_into_number. apply merge_into_nil.
Qed.

Lemma own_path_one (o : obj) (k : string) :
  own_path (Some (JObj o)) [k] = obj_get k o.
Proof.
  simpl. destruct (obj_get k o); reflexivity.
Qed.

Lemma own_path_data (o : obj) (k : string) :
  own_path (Some (JObj o)) ["data"; k]
  = match obj_get "data" o with
    | Some (JObj x) => obj_get k x
    | _ => None
    end.
Proof.
  cbn [own_path]. destruct (obj_get "data" o) as [[| | | | |x]|]; try reflexivity.
  destruct (obj_get k x); reflexivity.
Qed.

Lemma obj_get_data_set (o : obj) (v : json) :
  obj_get "data" (obj_set "data" v o) = Some v.
Proof.
  apply obj_get_set_same. discriminate.
Qed.

(** Merging a patch of the Item migrator lays its fields over the Item. *)
Lemma merge_plain_overrides (o u : obj) (d : option json) :
  get (Some (JObj o)) "data" = Ok d ->
  get d "action" = Ok None ->
  u = action_patch
  \/ (u = action_capacity_patch /\ get d "capacity" = Ok None) ->
  patch_overrides (JObj o) u (JObj (merge_plain o u)).
Proof.
  unfold get at 1. intros Hd Ha Hu. injection Hd as <-.
  unfold patch_overrides.
  assert (Hout : forall du k,
             k <> "data" ->
             own_path (Some (JObj (merge_plain o [("data", JObj du)]))) [k]
             = own_path (Some (JObj o)) [k]).
  { intros du k Hk. rewrite !own_path_one, merge_plain_data.
    now apply obj_get_set_other. }
  destruct (obj_get "data" o) as [[| | | | |x]|] eqn:Hdata;
    unfold get in Ha; try discriminate.
  5:{ (* the data of the Item is an object *)
    injection Ha as Ha.
    destruct Hu as [-> | [-> _]]; unfold action_patch, action_capacity_patch;
      (split; [ | split; [ | apply Hout ] ]); intros k;
      rewrite !own_path_data, merge_plain_data, obj_get_data_set, Hdata;
      [ rewrite merge_into_action by assumption
      | rewrite merge_into_action by assumption
      | rewrite merge_into_action_capacity by assumption
      | rewrite merge_into_action_capacity by assumption ];
      cbn [obj_get String.eqb Ascii.eqb Bool.eqb].
    - intros v. eqb_cases k "action"; [ | discriminate ].
      intros Hv. subst k. rewrite obj_get_set_same by discriminate. exact Hv.
    - eqb_cases k "action"; [ discriminate | ].
      intros _. now apply obj_get_set_other.
    - intros v. eqb_cases k "action".
      + intros Hv. subst k. rewrite obj_get_set_other by discriminate.
        rewrite obj_get_set_same by discriminate. exact Hv.
      + eqb_cases k "capacity"; [ | discriminate ].
        intros Hv. subst k. rewrite obj_get_set_same by discriminate. exact Hv.
    - eqb_cases k "action"; [ discriminate | ].
      eqb_cases k "capacity"; [ discriminate | ].
      intros _. rewrite !obj_get_set_other by assumption. reflexivity. }
  all: (* the data of the Item is no object: the patch replaces it *)
    destruct Hu as [-> | [-> _]]; unfold action_patch, action_capacity_patch;
    (split; [ | split; [ | apply Hout ] ]); intros k;
    rewrite !own_path_data, merge_plain_data, obj_get_data_set, Hdata;
    cbn [obj_get String.eqb Ascii.eqb Bool.eqb]; try (intros v Hv; exact Hv); intros Hv; exact Hv.
Qed.

Lemma migrateOwnedItem_result (h : Host) (i : json) (b : bool) (i' : json) :
  migrateOwnedItem h i = Ok (b, i') ->
  owned_item_result h i i'
  /\ (b = true <-> item_changes i).
Proof.
  unfold migrateOwnedItem, owned_item_result, item_changes. intros H.
  apply bind_ok in H as [u [Hu H]].
  destruct (isObjectEmpty u) eqn:E; simpl in H.
  - apply isObjectEmpty_nil in E. subst u. injection H as <- <-.
    split.
    + exists []. split; [ exact Hu | left; auto ].
    + split; [ discriminate | ].
      intros [u' [Hu' Hne]]. congruence.
  - assert (Hne : u <> []) by (intros ->; discriminate).
    apply bind_ok in H as [m [Hm H]]. injection H as <- <-.
    split.
    + exists u. split; [ exact Hu | right ].
      split; [ exact Hne | ]. split; [ exact Hm | ].
      intros Hh Hplain.
      destruct (migrateItemData_changed i u Hu Hne)
        as [o [d [-> [Hd [Ha Hshape]]]]].
      assert (Hmerge : m = JObj (merge_plain o u)).
      { rewrite (mergeObject_plain h Hh o u Hplain) in Hm.
        - congruence.
        - destruct Hshape as [-> | [-> _]]; reflexivity.
        - destruct Hshape as [-> | [-> _]]; reflexivity. }
      subst m. exact (merge_plain_overrides o u d Hd Ha Hshape).
    + split; [ intros _; eauto | reflexivity ].
Qed.

Lemma overflow_patch_no_items (h : Host) (actor : json) (u0 : obj) :
  _migrateActorOverflow h actor [] = Ok u0 -> obj_get "items" u0 = None.
Proof.
  unfold _migrateActorOverflow. intros H.
  apply bind_ok in H as [d [_ H]]. apply bind_ok in H as [ov [_ H]].
  destruct ov as [[| |[| |]| | |]|]; injection H as <-; reflexivity.
Qed.

(** C9.  For an Actor whose [items] is a sequence and whose migration
    returns a patch: the patch has an [items] entry exactly when some owned
    Item changes; that entry is a sequence matching the original one place by
    place (hence of the same length and order), an Item with an empty patch
    standing there itself and an Item with a non-empty patch standing there
    as the host's merge of the patch into the Item, which on a host keeping
    its contract lays the fields of the patch over those of the Item and
    leaves the others as they are. *)
Theorem owned_items_rebuilt (h : Host) (actor : json) (its : list json)
    (p : obj) :
  get (Some actor) "items" = Ok (Some (JArr its)) ->
  migrateActorData h actor = Ok p ->
  match obj_get "items" p with
  | None => Forall (fun i => migrateItemData i = Ok []) its
  | Some new =>
      exists its',
        new = JArr its'
        /\ length its' = length its
        /\ Forall2 (owned_item_result h) its its'
        /\ Exists item_changes its
  end.
Proof.
  intros Hits H. unfold migrateActorData in H.
  apply bind_ok in H as [u0 [H0 H]]. apply bind_ok in H as [u1 [H1 H]].
  rewrite Hits in H. simpl in H.
  apply bind_ok in H as [r [Hr H]].
  assert (Hnone : obj_get "items" u1 = None).
  { rewrite _migrateActorSkills_groups in H1.
    rewrite (migrate_groups_get_other actor "items" skill_groups u0 u1 H1).
    - exact (overflow_patch_no_items h actor u0 H0).
    - simpl. intuition discriminate. }
  apply map_m_Forall2 in Hr.
  assert (Hall : Forall2 (fun i x => owned_item_result h i (snd x)
                                     /\ (fst x = true <-> item_changes i))
                   its r).
  { clear -Hr. induction Hr as [|i [b i'] its r Hi Hr IH]; constructor.
    - simpl. now apply migrateOwnedItem_result.
    - exact IH. }
  clear Hr.
  destruct (existsb fst r) eqn:Hex; injection H as <-.
  - rewrite obj_get_set_same by discriminate.
    exists (map snd r). split; [ reflexivity | ].
    split; [ rewrite length_map; symmetry; exact (Forall2_length Hall) | ].
    split.
    + clear -Hall. induction Hall as [|i x its r [Hi _] Hall IH]; simpl;
        constructor; assumption.
    + clear -Hall Hex. induction Hall as [|i x its r [_ Hi] Hall IH];
        simpl in Hex; [ discriminate | ].
      apply orb_true_iff in Hex as [Hx | Hex].
      * left. now apply Hi.
      * right. now apply IH.
  - rewrite Hnone.
    clear -Hall Hex. induction Hall as [|i x its r [[u [Hu Hi]] Hb] Hall IH];
      simpl in Hex; constructor.
    + apply orb_false_iff in Hex as [Hx _].
      destruct Hi as [[-> _] | [Hne _]]; [ exact Hu | ].
      assert (fst x = true) by (apply Hb; exists u; auto). congruence.
    + apply orb_false_iff in Hex as [_ Hex]. now apply IH.
Qed.

Lemma owned_items_rebuilt_witness :
  match obj_get "items" samurai_patch with
  | None => Forall (fun i => migrateItemData i = Ok [])
              [weapon_without_action; quality_without_action]
  | Some new =>
      exists its',
        new = JArr its'
        /\ length its' = 2
        /\ Forall2 (owned_item_result (ref_host []))
             [weapon_without_action; quality_without_action] its'
        /\ Exists item_changes [weapon_without_action; quality_without_action]
  end.
Proof.
  apply (owned_items_rebuilt (ref_host []) street_samurai
           [weapon_without_action; quality_without_action] samurai_patch);
    reflexivity.
Defined.

(* ================================================================== *)
(** * Running a migrator twice *)
(* ================================================================== *)

Lemma own_path_data_get (o : obj) (k : string) (v : json) :
  own_path (Some (JObj o)) ["data"; k] = Some v ->
  exists x, get (Some (JObj o)) "data" = Ok (Some (JObj x))
            /\ get (Some (JObj x)) k = Ok (Some v).
Proof.
  rewrite own_path_data. unfold get.
  destruct (obj_get "data" o) as [[| | | | |x]|]; try discriminate.
  intros H. exists x. now rewrite H.
Qed.

Lemma get_own_path_data (o : obj) (d : option json) (k : string) (v : json) :
  get (Some (JObj o)) "data" = Ok d -> get d k = Ok (Some v) ->
  own_path (Some (JObj o)) ["data"; k] = Some v.
Proof.
  rewrite own_path_data. unfold get at 1. intros E. injection E as <-.
  destruct (obj_get "data" o) as [[| | | | |x]|]; unfold get; congruence.
Qed.

Lemma migrate_groups_sets (actor : json) (gs : list (string * list string)) :
  NoDup (map fst gs) -> ~ In "__proto__" (map fst gs) ->
  forall u p,
    migrate_groups actor gs u = Ok p ->
    forall key, In key (map fst gs) -> exists g, obj_get key p = Some (JObj g).
Proof.
  unfold migrate_groups.
  induction gs as [|[key1 path1] gs IH]; simpl; intros Hnd Hproto u p H key Hin.
  - contradiction.
  - inversion Hnd as [|? ? Hnotin Hnd']; subst.
    apply bind_ok in H as [u1 [H1 H]].
    destruct Hin as [<- | Hin].
    + apply migrate_group_shape in H1 as [g ->]. exists g.
      rewrite (migrate_groups_get_other actor key1 gs _ p H Hnotin).
      apply obj_get_set_same. intros ->. tauto.
    + apply (IH Hnd' (fun H' => Hproto (or_intror H')) u1 p H key Hin).
Qed.

(** The patch of the Actor migrator always carries the six group entries. *)
Lemma migrateActorData_groups (h : Host) (actor : json) (p : obj) :
  migrateActorData h actor = Ok p ->
  forall key path, In (key, path) skill_groups ->
                   exists g, obj_get key p = Some (JObj g).
Proof.
  unfold migrateActorData. intros H key path Hin.
  apply bind_ok in H as [u0 [_ H]]. apply bind_ok in H as [u1 [H1 H]].
  rewrite _migrateActorSkills_groups in H1.
  assert (Hk : In key (map fst skill_groups)) by (apply (in_map fst _ _ Hin)).
  destruct (migrate_groups_sets actor skill_groups) with (u := u0) (p := u1)
    (key := key) as [g Hg]; try assumption.
  { unfold skill_groups. simpl.
    repeat (constructor; [ simpl; intuition discriminate | ]). constructor. }
  { simpl. intuition discriminate. }
  exists g.
  apply bind_ok in H as [its [_ H]].
  destruct (negb (truthy its)); [ congruence | ].
  destruct its as [[| | | |l|]|]; try discriminate.
  apply bind_ok in H as [r [_ H]].
  destruct (existsb fst r); [ | congruence ].
  injection H as <-. rewrite obj_get_set_other; [ exact Hg | ].
  simpl in Hk. intuition (subst; discriminate).
Qed.

Lemma migrateActorData_not_empty (h : Host) (actor : json) (p : obj) :
  migrateActorData h actor = Ok p -> isObjectEmpty p = false.
Proof.
  intros H.
  destruct (migrateActorData_groups h actor p H "data.skills.active"
              ["data"; "skills"; "active"]) as [g Hg].
  - left. reflexivity.
  - destruct p; [ discriminate | reflexivity ].
Qed.

Lemma migrateSceneData_tokens (h : Host) (scene : json) (p : obj) :
  migrateSceneData h scene = Ok p -> exists ts, p = [("tokens", JArr ts)].
Proof.
  unfold migrateSceneData. intros H.
  apply bind_ok in H as [st [_ H]]. apply bind_ok in H as [tokens [_ H]].
  destruct tokens as [| | | |ts|]; try discriminate.
  apply bind_ok in H as [ts' [_ H]]. exists ts'. congruence.
Qed.

Lemma migrateItemData_type (i : json) (u : obj) :
  migrateItemData i = Ok u -> u <> [] ->
  exists ty, get (Some i) "type" = Ok ty /\ has_action_rule ty = true.
Proof.
  intros H Hne.
  destruct (get (Some i) "type") as [ty|e] eqn:Hty.
  - exists ty. split; [ reflexivity | ].
    destruct (has_action_rule ty) eqn:Hr; [ reflexivity | ].
    rewrite (migrateItemData_other_type i ty Hty Hr) in H. congruence.
  - unfold migrateItemData, _migrateItemsAddActions in H.
    rewrite Hty in H. discriminate.
Qed.

(** An Item merged with the patch of its migration needs no migration. *)
Lemma merged_item_is_current (o u : obj) :
  migrateItemData (JObj o) = Ok u ->
  migrateItemData (JObj (merge_plain o u)) = Ok [].
Proof.
  intros H. destruct u as [|e u'] eqn:Eu; [ exact H | ]. rewrite <- Eu in *.
  assert (Hne : u <> []) by (subst; discriminate). clear Eu e u'.
  destruct (migrateItemData_type _ u H Hne) as [ty [Hty Hr]].
  destruct (migrateItemData_changed _ u H Hne) as [o0 [d [E [Hd [Ha Hshape]]]]].
  injection E as <-.
  destruct (merge_plain_overrides o u d Hd Ha Hshape) as [Hover [Hkeep Hout]].
  set (o' := merge_plain o u) in *.
  assert (Hty' : get (Some (JObj o')) "type" = Ok ty).
  { unfold get in *. rewrite <- !own_path_one.
    rewrite (Hout "type") by discriminate. now rewrite own_path_one. }
  assert (Hact : own_path (Some (JObj o')) ["data"; "action"] = Some default_action).
  { apply Hover. destruct Hshape as [-> | [-> _]]; reflexivity. }
  apply own_path_data_get in Hact as [x' [Hd' Ha']].
  destruct (is_cyberware ty) eqn:Hc.
  - assert (Hcap : exists cv, get (Some (JObj x')) "capacity" = Ok (Some cv)).
    { destruct Hshape as [-> | [-> _]].
      - destruct (get_action_capacity d None Ha) as [c Hcap].
        rewrite (migrateItemData_cyberware _ ty Hty d Hd None Ha c Hcap Hc) in H.
        destruct c as [cv|]; [ | discriminate ].
        exists cv.
        pose proof (get_own_path_data o d "capacity" cv Hd Hcap) as Hp.
        rewrite <- (Hkeep "capacity") in Hp by reflexivity.
        apply own_path_data_get in Hp as [x'' [Hd'' Hc'']]. congruence.
      - exists (JNum 0).
        assert (Hp : own_path (Some (JObj o')) ["data"; "capacity"]
                     = Some (JNum 0)) by (apply Hover; reflexivity).
        apply own_path_data_get in Hp as [x'' [Hd'' Hc'']]. congruence. }
    destruct Hcap as [cv Hcap].
    now rewrite (migrateItemData_cyberware _ ty Hty' _ Hd' _ Ha' _ Hcap Hc).
  - now rewrite (migrateItemData_quality _ ty Hty' _ Hd' _ Ha' Hr Hc).
Qed.

(** C1, as the code has it.  On a host keeping its contract, the Item
    migrator run on an Item merged with the patch of its first run returns the
    empty patch.  The Actor migrator and the Scene migrator never return an
    empty patch, on a migrated entity no more than on a stale one: the Actor
    patch always carries the six skill-group entries and the Scene patch is
    always the whole token sequence. *)
Theorem second_run (h : Host) (o u : obj) :
  HostLaws h ->
  plain_keys o = true ->
  migrateItemData (JObj o) = Ok u ->
  (exists i', mergeObject h (JObj o) u = Ok i' /\ migrateItemData i' = Ok [])
  /\ (forall actor p,
        migrateActorData h actor = Ok p ->
        isObjectEmpty p = false
        /\ forall key path, In (key, path) skill_groups ->
                            exists g, obj_get key p = Some (JObj g))
  /\ (forall scene p,
        migrateSceneData h scene = Ok p ->
        isObjectEmpty p = false /\ exists ts, p = [("tokens", JArr ts)]).
Proof.
  intros Hh Hplain Hu. split; [ | split ].
  - exists (JObj (merge_plain o u)). split.
    + apply (mergeObject_plain h Hh o u Hplain);
        destruct (migrateItemData_cases _ u Hu) as [-> | [-> | ->]];
        reflexivity.
    + now apply merged_item_is_current.
  - intros actor p Hp. split.
    + exact (migrateActorData_not_empty h actor p Hp).
    + exact (migrateActorData_groups h actor p Hp).
  - intros scene p Hp.
    destruct (migrateSceneData_tokens h scene p Hp) as [ts ->].
    split; [ reflexivity | eauto ].
Qed.

Lemma second_run_witness :
  (exists i',
     mergeObject (ref_host [])
       (JObj [("name", JStr "Datajack"); ("type", JStr "cyberware");
              ("data", JObj [("essence", JNum 0)])]) action_capacity_patch
     = Ok i'
     /\ migrateItemData i' = Ok [])
  /\ (forall actor p,
        migrateActorData (ref_host []) actor = Ok p ->
        isObjectEmpty p = false
        /\ forall key path, In (key, path) skill_groups ->
                            exists g, obj_get key p = Some (JObj g))
  /\ (forall scene p,
        migrateSceneData (ref_host []) scene = Ok p ->
        isObjectEmpty p = false /\ exists ts, p = [("tokens", JArr ts)]).
Proof.
  apply (second_run (ref_host [])
           [("name", JStr "Datajack"); ("type", JStr "cyberware");
            ("data", JObj [("essence", JNum 0)])] action_capacity_patch
           (ref_host_laws [])); reflexivity.
Defined.

(** C1 as stated fails for Actors.  The first run on [street_samurai]
    returns [samurai_patch]; merged by the host it gives [migrated_samurai];
    the second run, on [migrated_samurai], returns a patch that is not
    empty. *)
Lemma actor_second_run_not_empty :
  migrateActorData (ref_host []) street_samurai = Ok samurai_patch
  /\ mergeObject (ref_host []) street_samurai samurai_patch
     = Ok migrated_samurai
  /\ exists p2,
       migrateActorData (ref_host []) migrated_samurai = Ok p2
       /\ isObjectEmpty p2 = false.
Proof.
  split; [ reflexivity | ]. split; [ reflexivity | ].
  eexists. split; reflexivity.
Qed.

(* ================================================================== *)
(** * Failure isolation in the orchestrator *)
(* ================================================================== *)

Lemma update_calls_app (t1 t2 : list event) :
  update_calls (t1 ++ t2) = update_calls t1 ++ update_calls t2.
Proof.
  apply flat_map_app.
Qed.

Lemma pack_update_calls_app (t1 t2 : list event) :
  pack_update_calls (t1 ++ t2) = pack_update_calls t1 ++ pack_update_calls t2.
Proof.
  apply flat_map_app.
Qed.

Section Isolation.

Context {W : Type}.
Variables (io : HostIO W) (h : Host).

Lemma runs_to_ret (s : W * list event) : runs_to (ret tt) s [].
Proof.
  exists (fst s). unfold ret. destruct s. simpl. now rewrite app_nil_r.
Qed.

Lemma migrateWorldEntity_caught (kind : string) (e : entity)
    (s : W * list event) :
  exists evs,
    runs_to (migrateWorldEntity W io h kind e) s evs
    /\ update_calls evs = planned_update h kind e
    /\ pack_update_calls evs = [].
Proof.
  unfold runs_to, migrateWorldEntity, planned_update, try_catch, bindM, lift.
  destruct (migrateEntityData h kind (ent_data e)) as [u|err].
  - destruct (isObjectEmpty u); simpl.
    + exists []. split; [ apply runs_to_ret | auto ].
    + unfold await_update, emit. simpl.
      destruct (entity_update io kind e u (fst s)) as [w' [[]|err]]; simpl.
      * eexists [_; _]. rewrite <- app_assoc. simpl. eauto.
      * eexists [_; _; _]. rewrite <- !app_assoc. simpl. eauto.
  - unfold emit. simpl. eexists [_]. eauto.
Qed.

Lemma migrateCompendiumEntity_caught (p : pack) (ent : entity)
    (s : W * list event) :
  exists evs,
    runs_to (migrateCompendiumEntity W io h p ent) s evs
    /\ pack_update_calls evs = planned_pack_update io h p ent
    /\ update_calls evs = [].
Proof.
  unfold runs_to, migrateCompendiumEntity, planned_pack_update, try_catch,
    bindM, lift.
  destruct (migrateEntityData h (pack_entity p) (ent_data ent)) as [u|err].
  - destruct (isObjectEmpty u); simpl.
    + exists []. split; [ apply runs_to_ret | auto ].
    + destruct (expandObject io u) as [x|err]; simpl.
      * unfold await_updateEntity, emit. simpl.
        destruct (pack_updateEntity io p _ (fst s)) as [w' [[]|err]]; simpl.
        -- eexists [_; _]. rewrite <- app_assoc. simpl. eauto.
        -- eexists [_; _]. rewrite <- !app_assoc. simpl. eauto.
      * unfold emit. simpl. eexists [_]. eauto.
  - unfold emit. simpl. eexists [_]. eauto.
Qed.

(** A loop whose turns cannot let an exception out runs through the whole
    list, and its trace is that of the turns one after the other. *)
Lemma for_each_caught {X C} (body : X -> M W unit)
    (calls : list event -> list C) (due : X -> list C) (l : list X) :
  (forall t1 t2, calls (t1 ++ t2) = calls t1 ++ calls t2) ->
  (forall x s, exists evs, runs_to (body x) s evs /\ calls evs = due x) ->
  forall s,
  exists evs,
    runs_to (for_each l body) s evs /\ calls evs = flat_map due l.
Proof.
  intros Happ Hbody.
  assert (Hnil : calls [] = []).
  { pose proof (Happ [] []) as E. simpl in E.
    destruct (calls []); [ reflexivity | ].
    apply (f_equal (@length C)) in E. rewrite length_app in E.
    simpl in E. lia. }
  induction l as [|x l IH]; intros s; simpl.
  - exists []. split; [ apply runs_to_ret | exact Hnil ].
  - destruct (Hbody x s) as [e1 [[w1 H1] Hc1]].
    destruct (IH (w1, snd s ++ e1)) as [e2 [[w2 H2] Hc2]].
    exists (e1 ++ e2). split.
    + exists w2. unfold bindM. rewrite H1, H2. simpl.
      now rewrite app_assoc.
    + now rewrite Happ, Hc1, Hc2.
Qed.

Lemma world_phase_isolated (kind : string) (es : list entity)
    (s : W * list event) :
  exists evs,
    runs_to (for_each es (migrateWorldEntity W io h kind)) s evs
    /\ update_calls evs = flat_map (planned_update h kind) es.
Proof.
  apply for_each_caught; [ apply update_calls_app | ].
  intros e s0. destruct (migrateWorldEntity_caught kind e s0) as [evs [H1 [H2 _]]].
  eauto.
Qed.

Lemma pack_content_isolated (p : pack) (content : list entity)
    (s : W * list event) :
  exists evs,
    runs_to (for_each content (migrateCompendiumEntity W io h p)) s evs
    /\ pack_update_calls evs = flat_map (planned_pack_update io h p) content.
Proof.
  apply for_each_caught; [ apply pack_update_calls_app | ].
  intros e s0.
  destruct (migrateCompendiumEntity_caught p e s0) as [evs [H1 [H2 _]]].
  eauto.
Qed.

Lemma flat_map_none {X C} (l : list X) :
  flat_map (fun _ : X => @nil C) l = [].
Proof.
  induction l; simpl; auto.
Qed.

(** A rejection of [pack.migrate()] or of [pack.getContent()] is caught
    nowhere: it ends the loop over the packs at that pack, nothing being
    added to the trace. *)
Lemma bundle_failure_propagates (p : pack) (ps : list pack)
    (s : W * list event) (e : error) :
  existsb (String.eqb (pack_entity p)) entity_kinds = true ->
  snd (pack_migrate io p (fst s)) = Throw e
  \/ (snd (pack_migrate io p (fst s)) = Ok tt
      /\ snd (pack_getContent io p (fst (pack_migrate io p (fst s)))) = Throw e) ->
  exists w',
    for_each (p :: ps) (migrateCompendium W io h) s = ((w', snd s), Throw e).
Proof.
  intros Hkind Hfail. simpl. unfold bindM at 1, migrateCompendium.
  rewrite Hkind. simpl. unfold bindM at 1, await_migrate.
  destruct (pack_migrate io p (fst s)) as [w1 r1]. simpl in Hfail.
  destruct Hfail as [-> | [-> Hfail]].
  - eauto.
  - unfold bindM at 1, await_getContent. simpl.
    destruct (pack_getContent io p w1) as [w2 r2]. simpl in Hfail. subst r2.
    eauto.
Qed.

Hypothesis Hreach : packs_reachable io.

Lemma migrateCompendium_reachable (p : pack) (s : W * list event) :
  exists evs,
    runs_to (migrateCompendium W io h p) s evs /\ update_calls evs = [].
Proof.
  unfold migrateCompendium.
  destruct (negb (existsb (String.eqb (pack_entity p)) entity_kinds)).
  - exists []. split; [ apply runs_to_ret | reflexivity ].
  - destruct (Hreach p (fst s)) as [Hm _].
    unfold runs_to, bindM at 1, await_migrate.
    destruct (pack_migrate io p (fst s)) as [w1 r1]. simpl in Hm. subst r1.
    destruct (Hreach p w1) as [_ [content Hc]].
    unfold bindM at 1, await_getContent. simpl.
    destruct (pack_getContent io p w1) as [w2 r2]. simpl in Hc. subst r2.
    destruct (for_each_caught (migrateCompendiumEntity W io h p)
                update_calls (fun _ => []) content update_calls_app)
      with (s := (w2, snd s)) as [evs [[w3 H3] Hcalls]].
    { intros e s0.
      destruct (migrateCompendiumEntity_caught p e s0) as [evs [H1 [_ H2]]].
      eauto. }
    unfold bindM, emit. rewrite H3. simpl.
    exists (evs ++ [ConsoleLog ("Migrated all " ++ pack_entity p
                                  ++ " entities from Compendium "
                                  ++ pack_collection p)%string]).
    split; [ exists w3; now rewrite app_assoc | ].
    rewrite update_calls_app, Hcalls, flat_map_none. reflexivity.
Qed.

(** With every pack in reach, [migrateWorld] runs to its end: it issues
    the update calls due to the Actors, the Items and the Scenes of the
    world, in that order, and records the version. *)
Lemma migrateWorld_completes (g : game) (s : W * list event) :
  exists evs,
    runs_to (migrateWorld W io h g) s evs
    /\ update_calls evs
       = flat_map (planned_update h "Actor") (actors g)
         ++ flat_map (planned_update h "Item") (items g)
         ++ flat_map (planned_update h "Scene") (scenes g)
    /\ In (VersionSet (version g)) evs.
Proof.
  unfold migrateWorld.
  set (n1 := Notify _). set (n2 := Notify _). set (l2 := ConsoleLog _).
  unfold runs_to, bindM at 1, emit at 1.
  destruct (world_phase_isolated "Actor" (actors g) (fst s, snd s ++ [n1]))
    as [e1 [[w1 H1] C1]].
  unfold bindM at 1. rewrite H1. simpl snd.
  destruct (world_phase_isolated "Item" (items g) (w1, (snd s ++ [n1]) ++ e1))
    as [e2 [[w2 H2] C2]].
  unfold bindM at 1. rewrite H2. simpl snd.
  destruct (world_phase_isolated "Scene" (scenes g)
              (w2, ((snd s ++ [n1]) ++ e1) ++ e2)) as [e3 [[w3 H3] C3]].
  unfold bindM at 1. rewrite H3. simpl snd.
  destruct (for_each_caught (migrateCompendium W io h) update_calls
              (fun _ => []) (filter (world_pack) (packs g))
              update_calls_app migrateCompendium_reachable
              (w3, (((snd s ++ [n1]) ++ e1) ++ e2) ++ e3))
    as [e4 [[w4 H4] C4]].
  unfold bindM at 1. rewrite H4. simpl snd.
  unfold bindM, emit. simpl.
  exists ([n1] ++ e1 ++ e2 ++ e3 ++ e4 ++ [VersionSet (version g); n2; l2]).
  split; [ | split ].
  - exists w4. f_equal. f_equal.
    rewrite <- !app_assoc. reflexivity.
  - rewrite !update_calls_app, C1, C2, C3, C4, flat_map_none. simpl.
    now rewrite !app_nil_r.
  - rewrite !in_app_iff. do 5 right. left. reflexivity.
Qed.

End Isolation.

(** C2, as the code has it.  Whatever the host does, a loop of the
    orchestrator over the entities of the world or over the content of a pack
    never lets the failure of an entity out, be it an exception of its
    migrator or the rejection of its update call: the loop runs through the
    whole batch and issues the update call of every entity whose migrator
    returns a patch that is not empty; so a batch with one poisoned entity
    among stale ones has the updates of all the others issued.  With every
    pack in reach [migrateWorld] runs to its end and records the version.
    A rejection of [pack.migrate()], which stands outside every [try], ends
    the loop over the packs there and then. *)
Theorem entity_failures_isolated {W} (io : HostIO W) (h : Host) (g : game) :
  (forall kind es s,
     exists evs,
       runs_to (for_each es (migrateWorldEntity W io h kind)) s evs
       /\ update_calls evs = flat_map (planned_update h kind) es)
  /\ (forall p content s,
        exists evs,
          runs_to (for_each content (migrateCompendiumEntity W io h p)) s evs
          /\ pack_update_calls evs
             = flat_map (planned_pack_update io h p) content)
  /\ (forall kind es1 bad es2 s,
        throws (migrateEntityData h kind (ent_data bad)) ->
        Forall (fun e => exists u, planned_update h kind e = [(kind, e, u)])
          (es1 ++ es2) ->
        exists evs,
          runs_to (for_each (es1 ++ bad :: es2) (migrateWorldEntity W io h kind))
            s evs
          /\ updated_entities evs = es1 ++ es2)
  /\ (packs_reachable io ->
      forall s,
      exists evs,
        runs_to (migrateWorld W io h g) s evs
        /\ update_calls evs
           = flat_map (planned_update h "Actor") (actors g)
             ++ flat_map (planned_update h "Item") (items g)
             ++ flat_map (planned_update h "Scene") (scenes g)
        /\ In (VersionSet (version g)) evs)
  /\ (forall p ps s e,
        existsb (String.eqb (pack_entity p)) entity_kinds = true ->
        snd (pack_migrate io p (fst s)) = Throw e ->
        exists w',
          for_each (p :: ps) (migrateCompendium W io h) s
          = ((w', snd s), Throw e)).
Proof.
  split; [ | split; [ | split; [ | split ] ] ].
  - intros kind es s. apply world_phase_isolated.
  - intros p content s. apply pack_content_isolated.
  - intros kind es1 bad es2 s [err Hbad] Hall.
    destruct (world_phase_isolated io h kind (es1 ++ bad :: es2) s)
      as [evs [Hrun Hcalls]].
    exists evs. split; [ exact Hrun | ].
    unfold updated_entities. rewrite Hcalls, flat_map_app. simpl.
    unfold planned_update at 2. rewrite Hbad. simpl.
    rewrite <- flat_map_app.
    clear -Hall. induction Hall as [|e l [u Hu] Hall IH]; simpl.
    + reflexivity.
    + rewrite Hu. simpl. now rewrite IH.
  - intros Hreach s. now apply migrateWorld_completes.
  - intros p ps s e Hkind Hfail.
    apply bundle_failure_propagates; [ exact Hkind | now left ].
Qed.

Lemma entity_failures_isolated_witness :
  (exists evs,
     runs_to (for_each [stale_cyberware; poisoned_cyberware; stale_quality]
                (migrateWorldEntity unit reachable_io (ref_host []) "Item"))
       (tt, []) evs
     /\ updated_entities evs = [stale_cyberware; stale_quality])
  /\ (exists evs,
        runs_to (migrateWorld unit reachable_io (ref_host [])
                   (sample_game [gear_pack])) (tt, []) evs
        /\ update_calls evs
           = flat_map (planned_update (ref_host []) "Actor")
               (actors (sample_game [gear_pack]))
             ++ flat_map (planned_update (ref_host []) "Item")
                  (items (sample_game [gear_pack]))
             ++ flat_map (planned_update (ref_host []) "Scene")
                  (scenes (sample_game [gear_pack]))
        /\ In (VersionSet "0.5.0") evs)
  /\ (exists w',
        for_each [broken_pack; gear_pack]
          (migrateCompendium unit sample_io (ref_host [])) (tt, [])
        = ((w', []), Throw (HostError "pack unreachable"))).
Proof.
  split; [ | split ].
  - destruct (entity_failures_isolated reachable_io (ref_host [])
                (sample_game [gear_pack])) as [_ [_ [Hbatch _]]].
    apply (Hbatch "Item" [stale_cyberware] poisoned_cyberware [stale_quality]).
    + exists TypeError. reflexivity.
    + repeat constructor; eexists; reflexivity.
  - destruct (entity_failures_isolated reachable_io (ref_host [])
                (sample_game [gear_pack])) as [_ [_ [_ [Hworld _]]]].
    apply Hworld. intros p w. split; [ reflexivity | ].
    eexists. reflexivity.
  - destruct (entity_failures_isolated sample_io (ref_host [])
                (sample_game [broken_pack; gear_pack])) as [_ [_ [_ [_ Hpack]]]].
    apply (Hpack broken_pack [gear_pack] (tt, [])); reflexivity.
Defined.

(** C2 as stated fails for a failure of the bundle.  With the pack
    [world.broken] out of reach, [migrateWorld] lets the rejection out: the
    stale Item of the next pack is not migrated and the version is not
    recorded, whereas without the broken pack it is. *)
Lemma unreachable_pack_aborts :
  (exists tr,
     migrateWorld unit sample_io (ref_host [])
       (sample_game [broken_pack; gear_pack]) (tt, [])
     = ((tt, tr), Throw (HostError "pack unreachable"))
     /\ pack_update_calls tr = []
     /\ ~ In (VersionSet "0.5.0") tr)
  /\ (exists tr,
        migrateWorld unit sample_io (ref_host [])
          (sample_game [gear_pack]) (tt, [])
        = ((tt, tr), Ok tt)
        /\ pack_update_calls tr
           = [(gear_pack, obj_set "_id" (JStr "q1") action_patch)]
        /\ In (VersionSet "0.5.0") tr).
Proof.
  split; eexists; (split; [ vm_compute; reflexivity | ]); split.
  - reflexivity.
  - simpl. intuition discriminate.
  - reflexivity.
  - simpl. intuition.
Qed.

(* ================================================================== *)
(** * The Actor migrator returns *)
(* ================================================================== *)

Lemma map_m_ok {A B} (f : A -> result B) (l : list A) :
  Forall (fun x => exists y, f x = Ok y) l -> exists r, map_m f l = Ok r.
Proof.
  induction 1 as [|x l [y Hy] _ [r Hr]]; simpl.
  - eauto.
  - rewrite Hy, Hr. simpl. eauto.
Qed.

Lemma migrateOwnedItem_returns (h : Host) (i : json) (u : obj) :
  HostLaws h -> plain_item i = true -> migrateItemData i = Ok u ->
  exists r, migrateOwnedItem h i = Ok r.
Proof.
  intros Hh Hplain Hu. unfold migrateOwnedItem. rewrite Hu. simpl.
  destruct (isObjectEmpty u) eqn:E; simpl; [ eauto | ].
  assert (Hne : u <> []) by (intros ->; discriminate).
  destruct (migrateItemData_changed i u Hu Hne) as [o [d [-> [_ [_ Hshape]]]]].
  rewrite (mergeObject_plain h Hh o u Hplain);
    [ simpl; eauto | | ]; destruct Hshape as [-> | [-> _]]; reflexivity.
Qed.

(** On a host keeping its contract the Actor migrator returns a patch for
    an Actor whose overflow can be read, whose skill groups are well formed
    and whose owned Items are plain documents that the Item migrator
    accepts. *)
Lemma migrateActorData_returns (h : Host) (actor : json) (v : json)
    (its : list json) :
  HostLaws h ->
  own_path (Some actor) ["data"; "track"; "physical"; "overflow"] = Some v ->
  skills_well_formed actor = true ->
  get (Some actor) "items" = Ok (Some (JArr its)) ->
  Forall (fun i => plain_item i = true /\ exists u, migrateItemData i = Ok u)
    its ->
  exists p, migrateActorData h actor = Ok p.
Proof.
  intros Hh Hv Hwf Hits Hitems. unfold migrateActorData.
  assert (H0 : exists u0, _migrateActorOverflow h actor [] = Ok u0).
  { destruct actor as [| | | | |o]; try discriminate.
    simpl in Hv. destruct (obj_get "data" o) as [d|] eqn:Hd; [ | discriminate ].
    unfold _migrateActorOverflow, get. rewrite Hd. simpl.
    rewrite (getProperty_own h Hh (Some d) "track.physical.overflow" v);
      [ | discriminate | exact Hv ].
    simpl. destruct v as [| |[| |]| | |]; eauto. }
  destruct H0 as [u0 ->]. simpl.
  destruct (_migrateActorSkills_returns actor u0 Hwf) as [u1 ->]. simpl.
  rewrite Hits. simpl.
  destruct (map_m_ok (migrateOwnedItem h) its) as [r ->].
  - clear -Hh Hitems. induction Hitems as [|i l [Hp [u Hu]] _ IH];
      constructor; [ | exact IH ].
    exact (migrateOwnedItem_returns h i u Hh Hp Hu).
  - simpl. destruct (existsb fst r); eauto.
Qed.

(* ================================================================== *)
(** * Further properties of the Item and Actor migrators *)
(* ================================================================== *)

Lemma is_cyberware_iff (ty : option json) :
  is_cyberware ty = true <-> ty = Some (JStr "cyberware").
Proof.
  unfold is_cyberware, includes.
  destruct ty as [[| | |s| |]|]; simpl; split; try discriminate.
  - rewrite orb_false_r, String.eqb_eq. congruence.
  - intros E. injection E as ->. reflexivity.
Qed.

Lemma has_action_rule_kinds (ty : option json) :
  has_action_rule ty = true <->
  ty = Some (JStr "quality") \/ ty = Some (JStr "cyberware").
Proof.
  destruct ty as [[| | |s| |]|];
    try (split; [ discriminate | intros [E | E]; discriminate ]).
  rewrite has_action_rule_iff. split; intros [E | E]; try (subst; auto);
    injection E as ->; auto.
Qed.

(** X1.  The Item migrator throws on an Item exactly when the Item is a
    quality or a cyberware and either has no [data] (absent or null) or is a
    cyberware whose [data.action] is defined while its [data.capacity] is
    not. *)
Theorem migrateItemData_throws_iff (o : obj) :
  throws (migrateItemData (JObj o)) <->
  (obj_get "type" o = Some (JStr "quality")
   \/ obj_get "type" o = Some (JStr "cyberware"))
  /\ (obj_get "data" o = None
      \/ obj_get "data" o = Some JNull
      \/ (obj_get "type" o = Some (JStr "cyberware")
          /\ exists a,
               get (obj_get "data" o) "action" = Ok (Some a)
               /\ get (obj_get "data" o) "capacity" = Ok None)).
Proof.
  assert (Hty : get (Some (JObj o)) "type" = Ok (obj_get "type" o))
    by reflexivity.
  assert (Hd : get (Some (JObj o)) "data" = Ok (obj_get "data" o))
    by reflexivity.
  rewrite <- has_action_rule_kinds, <- is_cyberware_iff.
  set (ty := obj_get "type" o) in *. set (d := obj_get "data" o) in *.
  destruct (has_action_rule ty) eqn:Hr.
  2:{ rewrite (migrateItemData_other_type _ ty Hty Hr).
      split; [ intros [e He]; discriminate | intros [E _]; discriminate ]. }
  destruct (get d "action") as [a|e] eqn:Ha.
  2:{ rewrite (migrateItemData_data_unreadable _ ty Hty d Hd e Hr Ha).
      split; [ intros _ | intros _; exists e; reflexivity ].
      split; [ reflexivity | ].
      destruct d as [[| | | | |x]|]; unfold get in Ha; try discriminate; auto. }
  assert (Hdata : d <> None /\ d <> Some JNull).
  { destruct d as [[| | | | |x]|]; unfold get in Ha; try discriminate;
      split; discriminate. }
  destruct Hdata as [Hd1 Hd2].
  destruct (is_cyberware ty) eqn:Hc.
  - destruct (get_action_capacity d a Ha) as [c Hcap].
    rewrite (migrateItemData_cyberware _ ty Hty d Hd a Ha c Hcap Hc).
    split.
    + intros [e He]. split; [ reflexivity | ]. right. right.
      split; [ reflexivity | ].
      destruct a as [a|], c as [c|]; try discriminate. eauto.
    + intros [_ [E | [E | [_ [a' [Ha' Hc']]]]]]; try contradiction.
      assert (a = Some a') by congruence. assert (c = None) by congruence.
      subst. exists TypeError. reflexivity.
  - rewrite (migrateItemData_quality _ ty Hty d Hd a Ha Hr Hc).
    split; [ intros [e He]; discriminate | ].
    intros [_ [E | [E | [E _]]]]; try contradiction. discriminate.
Qed.

Lemma map_m_throws {A B} (f : A -> result B) (l : list A) (x : A) :
  In x l -> throws (f x) -> throws (map_m f l).
Proof.
  intros Hin Hx. induction l as [|y l IH]; simpl; [ contradiction | ].
  destruct Hin as [E | Hin].
  - subst y. now apply throws_bind_left.
  - apply throws_bind_right. intros y'. apply throws_bind_left. now apply IH.
Qed.



Lemma reduce_throws {A B} (f : A -> B -> result A) (l : list B) (x : B) :
  In x l -> (forall a, throws (f a x)) -> forall a, throws (reduce f l a).
Proof.
  intros Hin Hx. induction l as [|y l IH]; simpl; intros a; [ contradiction | ].
  destruct Hin as [E | Hin].
  - subst y. apply throws_bind_left, Hx.
  - apply throws_bind_right. intros a'. now apply IH.
Qed.

Lemma reducer_malformed (running : obj) (kv : string * json) :
  specs_ok kv = false -> throws (reducer running kv).
Proof.
  destruct kv as [k v]. unfold specs_ok, reducer. simpl.
  destruct (get (Some v) "specs") as [[[| | |s|l|]|]|e]; simpl;
    try discriminate; intros _; eexists; reflexivity.
Qed.

Lemma migrate_groups_throw_at (actor : json) (key : string)
    (path : list string) (gs : list (string * list string)) :
  In (key, path) gs ->
  (forall u, throws (migrate_group actor key path u)) ->
  forall u, throws (migrate_groups actor gs u).
Proof.
  unfold migrate_groups. intros Hin Hthrow.
  induction gs as [|[k1 p1] gs IH]; simpl; intros u; [ contradiction | ].
  destruct Hin as [E | Hin].
  - injection E as -> ->. apply throws_bind_left, Hthrow.
  - apply throws_bind_right. intros a. now apply IH.
Qed.

(** X3.  A skill whose [specs] is neither a string nor an array (a number,
    null, an object, or no [specs] at all) in one of the six groups makes the
    Actor migrator throw. *)
Theorem malformed_specs_throws (h : Host) (actor : json) (key : string)
    (path : list string) (g : obj) (kv : string * json) :
  In (key, path) skill_groups ->
  get_path (Some actor) path = Ok (Some (JObj g)) ->
  In kv g ->
  specs_ok kv = false ->
  throws (migrateActorData h actor).
Proof.
  intros Hin Hpath Hkv Hbad. unfold migrateActorData.
  apply throws_bind_right. intros u0. apply throws_bind_left.
  rewrite _migrateActorSkills_groups.
  apply (migrate_groups_throw_at actor key path _ Hin).
  intros u. unfold migrate_group. rewrite Hpath. simpl.
  apply throws_bind_left.
  apply (reduce_throws reducer g kv Hkv).
  intros a. now apply reducer_malformed.
Qed.

Lemma malformed_specs_throws_witness :
  throws (migrateActorData (ref_host []) actor_with_numeric_specs).
Proof.
  apply (malformed_specs_throws (ref_host []) actor_with_numeric_specs
           "data.skills.active" ["data"; "skills"; "active"]
           [("hacking", JObj [("specs", JNum 2)])]
           ("hacking", JObj [("specs", JNum 2)])).
  - left. reflexivity.
  - reflexivity.
  - left. reflexivity.
  - reflexivity.
Defined.

Lemma reduce_reducer_arrays (g : obj) :
  forallb specs_array g = true ->
  forall acc, reduce reducer g acc = Ok acc.
Proof.
  induction g as [|[k v] g IH]; simpl; intros H acc; [ reflexivity | ].
  apply andb_true_iff in H as [Hv Hg]. unfold specs_array in Hv. simpl in Hv.
  destruct (get (Some v) "specs") as [[[| | |s|l|]|]|e]; try discriminate.
  simpl. now apply IH.
Qed.

Lemma migrate_group_arrays (actor : json) (key : string) (path : list string)
    (u : obj) :
  match get_path (Some actor) path with
  | Ok (Some (JObj g)) => forallb specs_array g
  | _ => false
  end = true ->
  migrate_group actor key path u = Ok (obj_set key (JObj []) u).
Proof.
  unfold migrate_group.
  destruct (get_path (Some actor) path) as [[[| | | | |g]|]|e];
    try discriminate.
  intros H. simpl. now rewrite (reduce_reducer_arrays g H).
Qed.

Lemma _migrateActorSkills_idle (actor : json) :
  skills_migrated actor = true ->
  _migrateActorSkills actor [] = Ok idle_patch.
Proof.
  unfold skills_migrated, skill_groups. simpl. intros H.
  repeat (apply andb_true_iff in H as [?H H]).
  unfold _migrateActorSkills.
  repeat (rewrite migrate_group_arrays by assumption; simpl).
  reflexivity.
Qed.

Lemma overflow_read (h : Host) (actor : json) (v : json) :
  HostLaws h ->
  own_path (Some actor) ["data"; "track"; "physical"; "overflow"] = Some v ->
  forall u,
    _migrateActorOverflow h actor u
    = Ok (match v with
          | JNum 0 =>
              obj_set "data.track.physical.overflow.max" (JNum 0)
                (obj_set "data.track.physical.overflow.value" (JNum 0) u)
          | _ => u
          end).
Proof.
  intros Hh Hv u. destruct actor as [| | | | |o]; try discriminate.
  simpl in Hv. destruct (obj_get "data" o) as [d|] eqn:Hd; [ | discriminate ].
  unfold _migrateActorOverflow, get. rewrite Hd. simpl.
  rewrite (getProperty_own h Hh (Some d) "track.physical.overflow" v);
    [ | discriminate | exact Hv ].
  simpl. destruct v as [| |[| |]| | |]; reflexivity.
Qed.

Lemma map_m_unchanged (h : Host) (its : list json) :
  forallb (fun i => match migrateItemData i with
                    | Ok [] => true
                    | _ => false
                    end) its = true ->
  map_m (migrateOwnedItem h) its = Ok (map (fun i => (false, i)) its).
Proof.
  induction its as [|i its IH]; simpl; intros H; [ reflexivity | ].
  apply andb_true_iff in H as [Hi H]. unfold migrateOwnedItem at 1.
  destruct (migrateItemData i) as [[|e u]|e]; try discriminate.
  simpl. now rewrite (IH H).
Qed.

(** X4.  On a host keeping its contract, an Actor that is already
    migrated (its overflow is no longer the number 0, every [specs] of its
    six groups is an array, and no owned Item needs a patch) gets exactly
    the patch of the six skill groups, each an empty object: the second run
    writes nothing into the Actor and yet is not empty. *)
Theorem migrated_actor_idle_patch (h : Host) (actor : json) (v : json) :
  HostLaws h ->
  own_path (Some actor) ["data"; "track"; "physical"; "overflow"] = Some v ->
  v <> JNum 0 ->
  skills_migrated actor = true ->
  items_current actor = true ->
  migrateActorData h actor = Ok idle_patch.
Proof.
  intros Hh Hv Hnz Hskills Hitems. unfold migrateActorData.
  rewrite (overflow_read h actor v Hh Hv).
  replace (match v with JNum 0 => _ | _ => [] end) with (@nil (string * json))
    by (destruct v as [| |[| |]| | |]; congruence).
  simpl. rewrite (_migrateActorSkills_idle actor Hskills). simpl.
  unfold items_current in Hitems.
  destruct (get (Some actor) "items") as [x|e]; [ simpl | discriminate ].
  destruct (truthy x) eqn:Ht; simpl in *; [ | reflexivity ].
  destruct x as [[| | | |its|]|]; try discriminate.
  rewrite (map_m_unchanged h its Hitems). simpl.
  replace (existsb fst (map (fun i : json => (false, i)) its)) with false;
    [ reflexivity | ].
  clear. induction its; simpl; auto.
Qed.

Lemma migrated_actor_idle_patch_witness :
  migrateActorData (ref_host []) migrated_samurai = Ok idle_patch.
Proof.
  apply (migrated_actor_idle_patch (ref_host []) migrated_samurai
           (JObj [("value", JNum 0); ("max", JNum 0)]) (ref_host_laws []));
    [ reflexivity | discriminate | reflexivity | reflexivity ].
Defined.

(** X5.  On a host keeping its contract, when the Actor migrator returns a
    patch for an Actor whose overflow can be read, the patch carries the two
    overflow entries exactly when the overflow is the number 0: any other
    overflow, a scalar such as 3 included, is left as it is. *)
Theorem overflow_entries_iff (h : Host) (actor : json) (v : json) (p : obj) :
  HostLaws h ->
  own_path (Some actor) ["data"; "track"; "physical"; "overflow"] = Some v ->
  migrateActorData h actor = Ok p ->
  (v = JNum 0
   /\ obj_get "data.track.physical.overflow.value" p = Some (JNum 0)
   /\ obj_get "data.track.physical.overflow.max" p = Some (JNum 0))
  \/ (v <> JNum 0
      /\ obj_get "data.track.physical.overflow.value" p = None
      /\ obj_get "data.track.physical.overflow.max" p = None).
Proof.
  intros Hh Hv Hp.
  apply migrateActorData_overflow_first in Hp as [u0 [H0 Hsame]].
  rewrite (overflow_read h actor v Hh Hv) in H0. injection H0 as <-.
  assert (Hkeys : forall k,
             k = "data.track.physical.overflow.value"
             \/ k = "data.track.physical.overflow.max" ->
             ~ In k (map fst skill_groups) /\ k <> "items").
  { intros k [-> | ->]; split; simpl; intuition discriminate. }
  rewrite !Hsame by (apply Hkeys; auto).
  destruct v as [| |[| |]| | |];
    try (right; split; [ discriminate | split; reflexivity ]).
  left. split; [ reflexivity | ]. split; reflexivity.
Qed.

Lemma overflow_entries_iff_witness :
  (JNum 3 = JNum 0
   /\ obj_get "data.track.physical.overflow.value" idle_patch = Some (JNum 0)
   /\ obj_get "data.track.physical.overflow.max" idle_patch = Some (JNum 0))
  \/ (JNum 3 <> JNum 0
      /\ obj_get "data.track.physical.overflow.value" idle_patch = None
      /\ obj_get "data.track.physical.overflow.max" idle_patch = None).
Proof.
  apply (overflow_entries_iff (ref_host []) (actor_with_overflow (JNum 3))
           (JNum 3) idle_patch (ref_host_laws [])); reflexivity.
Defined.



(* ================================================================== *)
(** * Further properties of the Scene migrator *)
(* ================================================================== *)

Lemma get_obj (o : obj) (k : string) :
  get (Some (JObj o)) k = Ok (obj_get k o).
Proof.
  reflexivity.
Qed.

(** X7.  A token whose [actorId] is falsy, or whose [actorLink] is truthy,
    or whose [actorData] has no truthy [data], comes back with [actorData]
    set to the empty object whatever it held, and with every other field as
    it was. *)
Theorem inert_token_cleared (h : Host) (o : obj) :
  truthy (obj_get "actorId" o) = false
  \/ truthy (obj_get "actorLink" o) = true
  \/ (exists ad d,
        obj_get "actorData" o = Some ad
        /\ get (Some ad) "data" = Ok d /\ truthy d = false) ->
  exists o',
    migrateToken h (JObj o) = Ok (JObj o')
    /\ obj_get "actorData" o' = Some (JObj [])
    /\ forall k, k <> "actorData" -> obj_get k o' = obj_get k o.
Proof.
  intros H. exists (obj_set "actorData" (JObj []) o).
  split; [ | split ].
  - unfold migrateToken. rewrite !get_obj. simpl.
    destruct (truthy (obj_get "actorId" o)) eqn:Hid; simpl; [ | reflexivity ].
    destruct (truthy (obj_get "actorLink" o)) eqn:Hlink; simpl; [ reflexivity | ].
    destruct H as [H | [H | [ad [d [Had [Hd Ht]]]]]]; try discriminate.
    rewrite Had, Hd. simpl. rewrite Ht. reflexivity.
  - apply obj_get_set_same. discriminate.
  - intros k Hk. now apply obj_get_set_other.
Qed.

Lemma inert_token_cleared_witness :
  exists o',
    migrateToken (ref_host ["a1"]) token_linked = Ok (JObj o')
    /\ obj_get "actorData" o' = Some (JObj [])
    /\ forall k, k <> "actorData" ->
                 obj_get k o' = obj_get k token_linked_fields.
Proof.
  apply (inert_token_cleared (ref_host ["a1"]) token_linked_fields).
  right. left. reflexivity.
Defined.

(** X8.  A token that refers to an Actor, is not linked and carries an
    override, but whose Actor the host cannot resolve, comes back with
    [actorId] set to null and [actorData] set to the empty object, every
    other field as it was. *)
Theorem unresolved_token_detached (h : Host) (o : obj) (ad : json)
    (d : option json) :
  truthy (obj_get "actorId" o) = true ->
  truthy (obj_get "actorLink" o) = false ->
  obj_get "actorData" o = Some ad ->
  get (Some ad) "data" = Ok d -> truthy d = true ->
  tokenActor h (JObj o) = false ->
  exists o',
    migrateToken h (JObj o) = Ok (JObj o')
    /\ obj_get "actorId" o' = Some JNull
    /\ obj_get "actorData" o' = Some (JObj [])
    /\ forall k, k <> "actorId" -> k <> "actorData" ->
                 obj_get k o' = obj_get k o.
Proof.
  intros Hid Hlink Had Hd Ht Hres.
  exists (obj_set "actorData" (JObj []) (obj_set "actorId" JNull o)).
  split; [ | split; [ | split ] ].
  - unfold migrateToken. rewrite !get_obj. simpl.
    rewrite Hid, Hlink, Had. simpl. rewrite Hd. simpl. rewrite Ht, Hres.
    reflexivity.
  - rewrite obj_get_set_other by discriminate.
    apply obj_get_set_same. discriminate.
  - apply obj_get_set_same. discriminate.
  - intros k H1 H2. rewrite !obj_get_set_other by assumption. reflexivity.
Qed.

Lemma unresolved_token_detached_witness :
  exists o',
    migrateToken (ref_host ["a1"]) token_orphan = Ok (JObj o')
    /\ obj_get "actorId" o' = Some JNull
    /\ obj_get "actorData" o' = Some (JObj [])
    /\ forall k, k <> "actorId" -> k <> "actorData" ->
                 obj_get k o' = obj_get k token_orphan_fields.
Proof.
  apply (unresolved_token_detached (ref_host ["a1"]) token_orphan_fields
           (JObj [("data", JObj [("attributes", JObj [])])])
           (Some (JObj [("attributes", JObj [])]))); reflexivity.
Defined.

(** X9.  Whatever the migration of a token does, it returns an object that
    differs from the token in [actorId] and [actorData] at most; [actorId] is
    kept or set to null, and [actorData] is defined afterwards. *)
Theorem token_frame (h : Host) (o : obj) (t' : json) :
  migrateToken h (JObj o) = Ok t' ->
  exists o',
    t' = JObj o'
    /\ (forall k, k <> "actorId" -> k <> "actorData" ->
                  obj_get k o' = obj_get k o)
    /\ (obj_get "actorId" o' = obj_get "actorId" o
        \/ obj_get "actorId" o' = Some JNull)
    /\ obj_get "actorData" o' <> None.
Proof.
  unfold migrateToken. rewrite !get_obj. simpl.
  assert (Hclear : forall v,
             exists o',
               Ok (JObj (obj_set "actorData" v o)) = Ok (JObj o')
               /\ (forall k, k <> "actorId" -> k <> "actorData" ->
                             obj_get k o' = obj_get k o)
               /\ (obj_get "actorId" o' = obj_get "actorId" o
                   \/ obj_get "actorId" o' = Some JNull)
               /\ obj_get "actorData" o' <> None).
  { intros v. eexists. split; [ reflexivity | ]. split; [ | split ].
    - intros k _ Hk. now apply obj_get_set_other.
    - left. apply obj_get_set_other. discriminate.
    - rewrite obj_get_set_same; discriminate. }
  intros H.
  assert (Hgoal : forall r,
             r = Ok t' ->
             (exists v, r = Ok (JObj (obj_set "actorData" v o))) ->
             exists o',
               t' = JObj o'
               /\ (forall k, k <> "actorId" -> k <> "actorData" ->
                             obj_get k o' = obj_get k o)
               /\ (obj_get "actorId" o' = obj_get "actorId" o
                   \/ obj_get "actorId" o' = Some JNull)
               /\ obj_get "actorData" o' <> None).
  { intros r Hr [v Hv]. destruct (Hclear v) as [o' [E Ho']].
    exists o'. split; [ congruence | exact Ho' ]. }
  destruct (truthy (obj_get "actorId" o)) eqn:Hid; simpl in H.
  2:{ apply (Hgoal _ H). eexists. reflexivity. }
  destruct (truthy (obj_get "actorLink" o)) eqn:Hlink; simpl in H.
  1:{ apply (Hgoal _ H). eexists. reflexivity. }
  apply bind_ok in H as [inert [Hinert H]].
  destruct inert.
  1:{ apply (Hgoal _ H). eexists. reflexivity. }
  destruct (tokenActor h (JObj o)); simpl in H.
  - destruct (obj_get "actorData" o) as [ad|]; [ | discriminate ].
    apply bind_ok in H as [u [_ H]]. apply bind_ok in H as [m [_ H]].
    apply (Hgoal _ H). eexists. reflexivity.
  - injection H as <-. eexists. split; [ reflexivity | ]. split; [ | split ].
    + intros k H1 H2. rewrite !obj_get_set_other by assumption. reflexivity.
    + right. rewrite obj_get_set_other by discriminate.
      apply obj_get_set_same. discriminate.
    + rewrite obj_get_set_same; discriminate.
Qed.

Lemma token_frame_witness :
  exists o',
    JObj (obj_set "actorData" (JObj []) token_linked_fields) = JObj o'
    /\ (forall k, k <> "actorId" -> k <> "actorData" ->
                  obj_get k o' = obj_get k token_linked_fields)
    /\ (obj_get "actorId" o' = obj_get "actorId" token_linked_fields
        \/ obj_get "actorId" o' = Some JNull)
    /\ obj_get "actorData" o' <> None.
Proof.
  apply (token_frame (ref_host ["a1"]) token_linked_fields). reflexivity.
Defined.

Lemma Forall2_map_m {A B} (f : A -> result B) (l : list A) (r : list B) :
  Forall2 (fun x y => f x = Ok y) l r -> map_m f l = Ok r.
Proof.
  induction 1 as [|x y l r Hx _ IH]; simpl; [ reflexivity | ].
  now rewrite Hx, IH.
Qed.

(** X10.  The Scene migrator returns a patch exactly when [scene.tokens] is
    a sequence and the migration of every token returns; the patch then has
    the one entry [tokens], the sequence of the migrated tokens place by
    place.  One token that throws leaves the Scene without patch. *)
Theorem scene_patch_iff (h : Host) (scene : json) (p : obj) :
  migrateSceneData h scene = Ok p <->
  exists ts ts',
    get (Some scene) "tokens" = Ok (Some (JArr ts))
    /\ Forall2 (fun t t' => migrateToken h t = Ok t') ts ts'
    /\ p = [("tokens", JArr ts')].
Proof.
  unfold migrateSceneData. split.
  - intros H. apply bind_ok in H as [st [Hst H]].
    apply bind_ok in H as [tokens [Hdup H]].
    destruct st as [st|]; [ | discriminate ]. injection Hdup as <-.
    destruct st as [| | | |ts|]; try discriminate.
    apply bind_ok in H as [ts' [Hts H]]. injection H as <-.
    exists ts, ts'. split; [ exact Hst | ].
    split; [ now apply map_m_Forall2 | reflexivity ].
  - intros [ts [ts' [Hst [Hall ->]]]]. rewrite Hst. simpl.
    now rewrite (Forall2_map_m _ _ _ Hall).
Qed.

Lemma migrateActorData_group_absent (h : Host) (actor : json) (key : string)
    (path : list string) :
  In (key, path) skill_groups ->
  own_path (Some actor) path = None ->
  throws (migrateActorData h actor).
Proof.
  intros Hin Hmiss. unfold migrateActorData.
  apply throws_bind_right. intros u0. apply throws_bind_left.
  rewrite _migrateActorSkills_groups.
  now apply (migrate_groups_missing actor key path).
Qed.

(** X11.  A token that is not linked, whose Actor resolves and whose
    override lacks one of the six skill groups (an override holds only the
    fields that differ from the Actor) makes the Scene migrator throw: the
    Scene gets no patch, whatever its other tokens are. *)
Theorem partial_override_poisons_scene (h : Host) (scene : json)
    (ts : list json) (o : obj) (ad : json) (d : option json) (key : string)
    (path : list string) :
  get (Some scene) "tokens" = Ok (Some (JArr ts)) ->
  In (JObj o) ts ->
  truthy (obj_get "actorId" o) = true ->
  truthy (obj_get "actorLink" o) = false ->
  obj_get "actorData" o = Some ad ->
  get (Some ad) "data" = Ok d -> truthy d = true ->
  tokenActor h (JObj o) = true ->
  In (key, path) skill_groups ->
  own_path (Some ad) path = None ->
  throws (migrateSceneData h scene).
Proof.
  intros Hst Hin Hid Hlink Had Hd Ht Hres Hgroup Hmiss.
  unfold migrateSceneData. rewrite Hst. simpl.
  apply throws_bind_left. apply (map_m_throws _ _ (JObj o) Hin).
  unfold migrateToken. rewrite !get_obj. simpl.
  rewrite Hid, Hlink, Had. simpl. rewrite Hd. simpl. rewrite Ht, Hres. simpl.
  apply throws_bind_left.
  exact (migrateActorData_group_absent h ad key path Hgroup Hmiss).
Qed.

Lemma partial_override_poisons_scene_witness :
  throws (migrateSceneData (ref_host ["a1"])
            (alley_scene [token_linked; token_partial_override])).
Proof.
  apply (partial_override_poisons_scene (ref_host ["a1"])
           (alley_scene [token_linked; token_partial_override])
           [token_linked; token_partial_override]
           token_partial_fields wounded_override
           (Some (JObj [("track",
                         JObj [("physical", JObj [("value", JNum 2)])])]))
           "data.skills.active" ["data"; "skills"; "active"]).
  - reflexivity.
  - right. left. reflexivity.
  - reflexivity.
  - reflexivity.
  - reflexivity.
  - reflexivity.
  - reflexivity.
  - reflexivity.
  - left. reflexivity.
  - reflexivity.
Defined.

(* ================================================================== *)
(** * Further properties of the split *)
(* ================================================================== *)

Lemma concat_empty_cons (t : string) (ts : list string) :
  String.concat "" (t :: ts) = (t ++ String.concat "" ts)%string.
Proof.
  destruct ts as [|t2 ts]; simpl; [ now rewrite append_empty_r | reflexivity ].
Qed.

Lemma strip_delims_app (s t : string) :
  strip_delims (s ++ t) = (strip_delims s ++ strip_delims t)%string.
Proof.
  induction s as [|c s IH]; simpl; [ reflexivity | ].
  destruct (is_delim c); simpl; now rewrite IH.
Qed.

Lemma strip_delims_clean (t : string) :
  no_delim t = true -> strip_delims t = t.
Proof.
  induction t as [|c t IH]; simpl; [ reflexivity | ].
  intros H. apply andb_true_iff in H as [Hc Ht].
  apply negb_true_iff in Hc. rewrite Hc. now rewrite IH.
Qed.

Lemma Tokens_sound (s : string) (ts : list string) :
  Tokens s ts ->
  Forall clean_token ts /\ String.concat "" ts = strip_delims s.
Proof.
  induction 1 as [|c s ts Hc _ [IH1 IH2]|t s ts Ht Hn Hb _ [IH1 IH2]].
  - split; [ constructor | reflexivity ].
  - split; [ exact IH1 | ]. simpl. now rewrite Hc.
  - split; [ constructor; [ split; assumption | exact IH1 ] | ].
    rewrite concat_empty_cons, strip_delims_app, IH2.
    now rewrite (strip_delims_clean t Hn).
Qed.

(** X12.  The tokens the split returns are not empty and hold no
    delimiter, and put end to end they are the string without its
    delimiters: no other character is dropped, added, changed or moved. *)
Theorem split_specs_sound (s : string) :
  Forall clean_token (split_specs s)
  /\ String.concat "" (split_specs s) = strip_delims s.
Proof.
  apply Tokens_sound, split_specs_tokens.
Qed.

Lemma at_boundary_app (s t : string) :
  at_boundary s = true -> at_boundary t = true -> at_boundary (s ++ t) = true.
Proof.
  destruct s; simpl; auto.
Qed.

Lemma Tokens_app (s1 : string) (ts1 : list string) :
  Tokens s1 ts1 ->
  forall s2 ts2,
    at_boundary s2 = true -> Tokens s2 ts2 ->
    Tokens (s1 ++ s2) (ts1 ++ ts2).
Proof.
  induction 1 as [|c s ts Hc _ IH|t s ts Ht Hn Hb _ IH];
    intros s2 ts2 Hb2 H2; simpl.
  - exact H2.
  - apply Tokens_delim; [ exact Hc | now apply IH ].
  - rewrite append_assoc.
    apply Tokens_token; try assumption; [ | now apply IH ].
    now apply at_boundary_app.
Qed.

(** X13.  Splitting distributes over a delimiter: the tokens of two
    strings put together with a delimiter between them are the tokens of the
    first followed by those of the second. *)
Theorem split_specs_app (s1 s2 : string) (c : ascii) :
  is_delim c = true ->
  split_specs (s1 ++ String c s2) = split_specs s1 ++ split_specs s2.
Proof.
  intros Hc.
  apply (Tokens_unique (s1 ++ String c s2)); [ | apply split_specs_tokens ].
  apply Tokens_app; [ apply split_specs_tokens | exact Hc | ].
  apply Tokens_delim; [ exact Hc | apply split_specs_tokens ].
Qed.

Lemma split_specs_app_witness :
  split_specs ("Knives|Swords" ++ String "/" "Axes, Clubs")
  = split_specs "Knives|Swords" ++ split_specs "Axes, Clubs".
Proof.
  apply (split_specs_app "Knives|Swords" "Axes, Clubs" "/"). reflexivity.
Defined.

Lemma Tokens_delims (d : string) :
  all_delims d = true ->
  forall s ts, Tokens s ts -> Tokens (d ++ s) ts.
Proof.
  induction d as [|c d IH]; simpl; intros H s ts Hs; [ exact Hs | ].
  apply andb_true_iff in H as [Hc Hd].
  apply Tokens_delim; [ exact Hc | now apply IH ].
Qed.

Lemma Tokens_concat (sep : string) (ts : list string) :
  sep <> "" -> all_delims sep = true ->
  Forall clean_token ts ->
  Tokens (String.concat sep ts) ts.
Proof.
  intros Hne Hsep Hts. induction Hts as [|t ts [Ht Hn] Hts IH].
  - constructor.
  - destruct ts as [|t2 ts].
    + simpl. rewrite <- (append_empty_r t) at 1.
      apply Tokens_token; [ assumption | assumption | reflexivity | constructor ].
    + change (String.concat sep (t :: t2 :: ts))
        with (t ++ (sep ++ String.concat sep (t2 :: ts)))%string.
      apply Tokens_token; [ assumption | assumption | | ].
      * destruct sep as [|c sep]; [ congruence | ]. simpl in *.
        now apply andb_true_iff in Hsep as [Hc _].
      * now apply Tokens_delims.
Qed.

(** X14.  Round trip: tokens that are not empty and hold no delimiter,
    joined with any separator made of delimiters (a comma, a slash, several
    of them), split back into the same tokens. *)
Theorem split_join (sep : string) (ts : list string) :
  sep <> "" -> all_delims sep = true ->
  Forall clean_token ts ->
  split_specs (String.concat sep ts) = ts.
Proof.
  intros Hne Hsep Hts.
  apply (Tokens_unique (String.concat sep ts));
    [ now apply Tokens_concat | apply split_specs_tokens ].
Qed.

Lemma split_join_witness :
  split_specs (String.concat "/," ["Semi-Automatics"; "Revolvers"; "Tasers"])
  = ["Semi-Automatics"; "Revolvers"; "Tasers"].
Proof.
  apply (split_join "/," ["Semi-Automatics"; "Revolvers"; "Tasers"]).
  - discriminate.
  - reflexivity.
  - repeat constructor; discriminate.
Defined.

(* ================================================================== *)
(** * Further properties of the orchestrator *)
(* ================================================================== *)

Section Traces.

Context {W : Type}.
Variables (io : HostIO W) (h : Host).
Variable Q : event -> Prop.

Lemma emits_only_ret {A} (a : A) : emits_only Q (ret (W := W) a).
Proof.
  intros s. exists (fst s), [], (Ok a). unfold ret.
  rewrite app_nil_r. destruct s. split; [ reflexivity | constructor ].
Qed.

Lemma emits_only_lift {A} (r : result A) : emits_only Q (lift W r).
Proof.
  intros s. exists (fst s), [], r. unfold lift.
  rewrite app_nil_r. destruct s. split; [ reflexivity | constructor ].
Qed.

Lemma emits_only_emit (ev : event) : Q ev -> emits_only Q (emit W ev).
Proof.
  intros Hev s. exists (fst s), [ev], (Ok tt). unfold emit.
  split; [ reflexivity | repeat constructor; exact Hev ].
Qed.

Lemma emits_only_bind {A B} (m : M W A) (k : A -> M W B) :
  emits_only Q m -> (forall a, emits_only Q (k a)) ->
  emits_only Q (bindM m k).
Proof.
  intros Hm Hk s. destruct (Hm s) as [w1 [e1 [r1 [E1 Q1]]]].
  unfold bindM. rewrite E1. destruct r1 as [a|err].
  - destruct (Hk a (w1, snd s ++ e1)) as [w2 [e2 [r2 [E2 Q2]]]].
    exists w2, (e1 ++ e2), r2. rewrite E2. simpl. rewrite app_assoc.
    split; [ reflexivity | now apply Forall_app ].
  - exists w1, e1, (Throw err). auto.
Qed.

Lemma emits_only_try {A} (body : M W A) (handler : error -> M W A) :
  emits_only Q body -> (forall err, emits_only Q (handler err)) ->
  emits_only Q (try_catch body handler).
Proof.
  intros Hb Hh s. destruct (Hb s) as [w1 [e1 [r1 [E1 Q1]]]].
  unfold try_catch. rewrite E1. destruct r1 as [a|err].
  - exists w1, e1, (Ok a). auto.
  - destruct (Hh err (w1, snd s ++ e1)) as [w2 [e2 [r2 [E2 Q2]]]].
    exists w2, (e1 ++ e2), r2. rewrite E2. simpl. rewrite app_assoc.
    split; [ reflexivity | now apply Forall_app ].
Qed.

Lemma emits_only_for_each {X} (l : list X) (body : X -> M W unit) :
  (forall x, In x l -> emits_only Q (body x)) ->
  emits_only Q (for_each l body).
Proof.
  induction l as [|x l IH]; simpl; intros Hbody.
  - apply emits_only_ret.
  - apply emits_only_bind; [ apply Hbody; now left | ].
    intros _. apply IH. intros y Hy. apply Hbody. now right.
Qed.

Lemma emits_only_update (kind : string) (e : entity) (u : obj) :
  (forall b, Q (UpdateCall kind e u b)) ->
  emits_only Q (await_update W io kind e u).
Proof.
  intros HQ s. unfold await_update.
  destruct (entity_update io kind e u (fst s)) as [w' r].
  exists w', [UpdateCall kind e u (accepted r)], r.
  split; [ reflexivity | repeat constructor; apply HQ ].
Qed.

Lemma emits_only_updateEntity (p : pack) (u : obj) :
  (forall b, Q (PackUpdateCall p u b)) ->
  emits_only Q (await_updateEntity W io p u).
Proof.
  intros HQ s. unfold await_updateEntity.
  destruct (pack_updateEntity io p u (fst s)) as [w' r].
  exists w', [PackUpdateCall p u (accepted r)], r.
  split; [ reflexivity | repeat constructor; apply HQ ].
Qed.

Lemma emits_only_migrate (p : pack) : emits_only Q (await_migrate W io p).
Proof.
  intros s. unfold await_migrate.
  destruct (pack_migrate io p (fst s)) as [w' r].
  exists w', [], r. rewrite app_nil_r. split; [ reflexivity | constructor ].
Qed.

Lemma emits_only_getContent (p : pack) :
  emits_only Q (await_getContent W io p).
Proof.
  intros s. unfold await_getContent.
  destruct (pack_getContent io p (fst s)) as [w' r].
  exists w', [], r. rewrite app_nil_r. split; [ reflexivity | constructor ].
Qed.

Hypothesis Q_log : forall msg, Q (ConsoleLog msg).
Hypothesis Q_error : forall err, Q (ConsoleError err).

Lemma emits_only_world_entity (kind : string) (e : entity) :
  (forall u b, Q (UpdateCall kind e u b)) ->
  emits_only Q (migrateWorldEntity W io h kind e).
Proof.
  intros HQ. unfold migrateWorldEntity.
  apply emits_only_try; [ | intros err; now apply emits_only_emit ].
  apply emits_only_bind; [ apply emits_only_lift | ]. intros u.
  destruct (negb (isObjectEmpty u)); [ | apply emits_only_ret ].
  apply emits_only_bind; [ now apply emits_only_emit | ].
  intros _. apply emits_only_update. apply HQ.
Qed.

Lemma emits_only_compendium (p : pack) :
  (forall u b, Q (PackUpdateCall p u b)) ->
  emits_only Q (migrateCompendium W io h p).
Proof.
  intros HQ. unfold migrateCompendium.
  destruct (negb (existsb (String.eqb (pack_entity p)) entity_kinds));
    [ apply emits_only_ret | ].
  apply emits_only_bind; [ apply emits_only_migrate | ]. intros _.
  apply emits_only_bind; [ apply emits_only_getContent | ]. intros content.
  apply emits_only_bind; [ | intros _; now apply emits_only_emit ].
  apply emits_only_for_each. intros ent _. unfold migrateCompendiumEntity.
  apply emits_only_try; [ | intros err; now apply emits_only_emit ].
  apply emits_only_bind; [ apply emits_only_lift | ]. intros u.
  destruct (negb (isObjectEmpty u)); [ | apply emits_only_ret ].
  apply emits_only_bind; [ apply emits_only_lift | ]. intros _.
  apply emits_only_bind; [ apply emits_only_updateEntity, HQ | ].
  intros _. now apply emits_only_emit.
Qed.

(** The four phases of [migrateWorld], up to the recording of the
    version. *)
Lemma emits_only_phases (g : game) (k : M W unit) :
  (forall kind e u b, Q (UpdateCall kind e u b)) ->
  (forall p u b, In p (filter world_pack (packs g)) -> Q (PackUpdateCall p u b)) ->
  emits_only Q k ->
  emits_only Q
    (bindM (for_each (actors g) (migrateWorldEntity W io h "Actor")) (fun _ =>
     bindM (for_each (items g) (migrateWorldEntity W io h "Item")) (fun _ =>
     bindM (for_each (scenes g) (migrateWorldEntity W io h "Scene")) (fun _ =>
     bindM (for_each (filter world_pack (packs g)) (migrateCompendium W io h))
       (fun _ => k))))).
Proof.
  intros HU HP Hk.
  repeat (apply emits_only_bind;
          [ apply emits_only_for_each; intros e _;
            apply emits_only_world_entity; intros u b; apply HU
          | intros _ ]).
  apply emits_only_bind; [ | intros _; exact Hk ].
  apply emits_only_for_each. intros p Hp. apply emits_only_compendium.
  intros u b. now apply HP.
Qed.

End Traces.

Lemma filter_idem {A} (f : A -> bool) (l : list A) :
  filter f (filter f l) = filter f l.
Proof.
  induction l as [|x l IH]; simpl; [ reflexivity | ].
  destruct (f x) eqn:E; simpl; [ rewrite E, IH | ]; auto.
Qed.

(** X15.  The packs that are not owned by the world, or whose kind is
    not Actor, Item or Scene, play no part in [migrateWorld]: the run is the
    same without them, and every update call it sends to a pack goes to a
    pack of the world, whether the run ends normally or not. *)
Theorem foreign_packs_ignored {W} (io : HostIO W) (h : Host) (g : game) :
  migrateWorld W io h g = migrateWorld W io h (world_packs_only g)
  /\ emits_only to_world_pack (migrateWorld W io h g).
Proof.
  split.
  - unfold migrateWorld, world_packs_only. simpl.
    now rewrite filter_idem.
  - unfold migrateWorld.
    apply emits_only_bind; [ now apply emits_only_emit | intros _ ].
    apply emits_only_phases; try (intros; exact I).
    + intros p u b Hp. apply filter_In in Hp. simpl. tauto.
    + repeat (apply emits_only_bind; [ now apply emits_only_emit | intros _ ]).
      now apply emits_only_emit.
Qed.





Lemma planned_pack_update_id {W} (io : HostIO W) (h : Host) (p : pack)
    (content : list entity) (ent : entity) (c : pack * obj) :
  In ent content ->
  In c (planned_pack_update io h p ent) ->
  carries_id io h p content c.
Proof.
  unfold planned_pack_update, carries_id. intros Hent Hc.
  destruct (migrateEntityData h (pack_entity p) (ent_data ent)) as [u|e] eqn:Hu;
    [ | contradiction ].
  destruct (isObjectEmpty u) eqn:He; [ contradiction | ].
  destruct (expandObject io u) as [x|e]; [ | contradiction ].
  destruct Hc as [<- | []]. simpl. split; [ reflexivity | ].
  exists ent, u. split; [ exact Hent | ]. split; [ exact Hu | ].
  split; [ intros ->; discriminate | ].
  split; [ apply obj_get_set_same; discriminate | ].
  intros k Hk. now apply obj_get_set_other.
Qed.

(** X17.  Every update call the loop of [migrateCompendium] sends goes to
    that pack and is the patch of an entity of its content with the
    identifier of the entity put in under [_id], nothing else changed. *)
Theorem pack_updates_carry_id {W} (io : HostIO W) (h : Host) (p : pack)
    (content : list entity) (s : W * list event) :
  exists evs,
    runs_to (for_each content (migrateCompendiumEntity W io h p)) s evs
    /\ Forall (carries_id io h p content) (pack_update_calls evs).
Proof.
  destruct (pack_content_isolated io h p content s) as [evs [Hrun Hcalls]].
  exists evs. split; [ exact Hrun | ].
  rewrite Hcalls. apply Forall_forall. intros c Hc.
  apply in_flat_map in Hc as [ent [Hent Hc]].
  exact (planned_pack_update_id io h p content ent c Hent Hc).
Qed.

Lemma planned_update_always (h : Host) (kind : string) (e : entity) :
  kind = "Actor" \/ kind = "Scene" ->
  map (fun c : string * entity * obj => snd (fst c)) (planned_update h kind e)
  = if migrates h kind e then [e] else [].
Proof.
  intros Hkind. unfold planned_update, migrates.
  destruct (migrateEntityData h kind (ent_data e)) as [u|err] eqn:Hu;
    [ | reflexivity ].
  assert (Hne : isObjectEmpty u = false).
  { unfold migrateEntityData in Hu. destruct Hkind as [-> | ->]; simpl in Hu.
    - exact (migrateActorData_not_empty h _ u Hu).
    - destruct (migrateSceneData_tokens h _ u Hu) as [ts ->]. reflexivity. }
  now rewrite Hne.
Qed.

(** X18.  In the phase of the Actors and in the phase of the Scenes, the
    entities that get an update call are exactly those whose migrator
    returns, in their order: an Actor or a Scene is written on every run,
    migrated already or not. *)
Theorem actors_and_scenes_always_updated {W} (io : HostIO W) (h : Host)
    (kind : string) (es : list entity) (s : W * list event) :
  kind = "Actor" \/ kind = "Scene" ->
  exists evs,
    runs_to (for_each es (migrateWorldEntity W io h kind)) s evs
    /\ updated_entities evs = filter (migrates h kind) es.
Proof.
  intros Hkind.
  destruct (world_phase_isolated io h kind es s) as [evs [Hrun Hcalls]].
  exists evs. split; [ exact Hrun | ].
  unfold updated_entities. rewrite Hcalls. clear Hcalls Hrun.
  induction es as [|e es IH]; simpl; [ reflexivity | ].
  rewrite map_app, IH, (planned_update_always h kind e Hkind).
  destruct (migrates h kind e); reflexivity.
Qed.

Lemma actors_and_scenes_always_updated_witness :
  exists evs,
    runs_to (for_each [samurai_entity; spirit_entity]
               (migrateWorldEntity unit reachable_io (ref_host []) "Actor"))
      (tt, []) evs
    /\ updated_entities evs = [samurai_entity].
Proof.
  apply (actors_and_scenes_always_updated reachable_io (ref_host []) "Actor"
           [samurai_entity; spirit_entity] (tt, [])).
  left. reflexivity.
Defined.

(* ================================================================== *)
(** * What the migrators write *)
(* ================================================================== *)

(** X19.  The Item migrator returns a patch that is not empty exactly for
    the Items of type quality or cyberware whose [data.action] reads as
    undefined: a missing capacity alone never yields a patch. *)
Theorem item_patch_nonempty_iff (o : obj) :
  (exists u, migrateItemData (JObj o) = Ok u /\ u <> []) <->
  (obj_get "type" o = Some (JStr "quality")
   \/ obj_get "type" o = Some (JStr "cyberware"))
  /\ get_path (Some (JObj o)) ["data"; "action"] = Ok None.
Proof.
  assert (Hty : get (Some (JObj o)) "type" = Ok (obj_get "type" o))
    by reflexivity.
  split.
  - intros [u [Hu Hne]].
    destruct (migrateItemData_type _ u Hu Hne) as [ty [Hty' Hr]].
    assert (ty = obj_get "type" o) by congruence. subst ty.
    split; [ now apply has_action_rule_kinds | ].
    destruct (migrateItemData_changed _ u Hu Hne) as [o0 [d [_ [Hd [Ha _]]]]].
    unfold get in Hd at 1. injection Hd as <-.
    simpl. now rewrite Ha.
  - intros [Hkind Hact]. apply has_action_rule_kinds in Hkind.
    apply get_path_two in Hact as [d [Hd Ha]].
    destruct (is_cyberware (obj_get "type" o)) eqn:Hc.
    + destruct (get_action_capacity d None Ha) as [c Hcap].
      rewrite (migrateItemData_cyberware _ _ Hty d Hd None Ha c Hcap Hc).
      destruct c; eexists; (split; [ reflexivity | discriminate ]).
    + rewrite (migrateItemData_quality _ _ Hty d Hd None Ha Hkind Hc).
      eexists. split; [ reflexivity | discriminate ].
Qed.

Lemma overflow_patch_shape (h : Host) (actor : json) (u0 : obj) :
  _migrateActorOverflow h actor [] = Ok u0 ->
  forall k,
    obj_get k u0 <> None ->
    k = "data.track.physical.overflow.value"
    \/ k = "data.track.physical.overflow.max".
Proof.
  unfold _migrateActorOverflow. intros H.
  apply bind_ok in H as [d [_ H]]. apply bind_ok in H as [ov [_ H]].
  assert (E : u0 = [] \/
              u0 = [("data.track.physical.overflow.value", JNum 0);
                    ("data.track.physical.overflow.max", JNum 0)]).
  { destruct ov as [[| |[| |]| | |]|]; injection H as <-; auto. }
  intros k Hk. destruct E as [-> | ->]; simpl in Hk; [ congruence | ].
  eqb_cases k "data.track.physical.overflow.value"; [ auto | ].
  eqb_cases k "data.track.physical.overflow.max"; [ auto | congruence ].
Qed.

(** X20.  A patch of the Actor migrator has no key other than the two
    overflow entries, the six skill groups and [items]: the migrator writes
    nowhere else in the Actor. *)
Theorem actor_patch_domain (h : Host) (actor : json) (p : obj) :
  migrateActorData h actor = Ok p ->
  incl (keys p) actor_patch_keys.
Proof.
  intros Hp k Hk. apply keys_obj_get in Hk.
  destruct (in_dec string_dec k actor_patch_keys) as [Hin | Hout];
    [ exact Hin | exfalso ].
  apply migrateActorData_overflow_first in Hp as [u0 [H0 Hsame]].
  unfold actor_patch_keys in Hout. rewrite !in_app_iff in Hout.
  rewrite Hsame in Hk.
  - apply (overflow_patch_shape h actor u0 H0) in Hk.
    apply Hout. left. destruct Hk as [-> | ->]; simpl; auto.
  - tauto.
  - intros ->. apply Hout. right. right. now left.
Qed.

Lemma actor_patch_domain_witness : incl (keys samurai_patch) actor_patch_keys.
Proof.
  apply (actor_patch_domain (ref_host []) street_samurai samurai_patch).
  reflexivity.
Defined.
